(** * flappy-bird-neat: the evaluation loop of [game.py]

    A shallow embedding of the simulation core of [src/game.py]: the bird
    physics ([Bird.jump], [Bird.move], the state kept by [Bird.draw]), the
    pipes ([Pipe.__init__], [Pipe.set_height], [Pipe.move], [Pipe.collide]),
    the floor ([Base.move]) and the game loop of [eval_genomes], one
    iteration at a time.

    Numbers.  Python [int]s are [Z].  The [float]s of the physics are
    modelled by exact rationals [Q], compared with [Qeq] ([==]): every
    position the game computes is a multiple of 1/2 far inside the range in
    which binary64 is exact.  The fitness is not of that kind: it is built
    from 0.1, which is no binary fraction, so [genome.fitness] is an IEEE 754
    binary64 number, Rocq's primitive [float], and [+=] and [-=] round as
    Python's do.

    Outside the model: window, clock, fonts and blitting of pygame, the
    QUIT event and the global generation counter.  The image files are not
    part of the sources; a record [Assets] stands for the loaded and scaled
    surfaces. *)

From Stdlib Require Import List Bool Arith ZArith QArith Qround Qabs Lia Lqa.
From Stdlib Require Import PrimFloat.
Import ListNotations.

Open Scope Z_scope.

(** A decimal such as 0.1 denotes the nearest binary64 number, as in
    Python. *)
#[local] Set Warnings "-inexact-float".

(** ** Numbers *)

Definition Qltb (a b : Q) : bool := negb (Qle_bool b a).

(** Python's [round(x)] on a float: to the nearest integer, ties to the even
    one. *)
Definition py_round (q : Q) : Z :=
  let f := Qfloor q in
  let r := (q - inject_Z f)%Q in
  if Qltb r (1#2) then f
  else if Qltb (1#2) r then f + 1
  else if Z.even f then f else f + 1.

(** ** Surfaces and masks (pygame) *)

(** A loaded image: its size and which pixels are opaque (alpha above the
    threshold of [pygame.mask.from_surface]). *)
Record Surface := mkSurface {
  get_width : Z;
  get_height : Z;
  opaque : Z -> Z -> bool
}.

(** [pygame.transform.flip(img, False, True)]: upside down. *)
Definition flip_vertical (s : Surface) : Surface :=
  {| get_width := get_width s;
     get_height := get_height s;
     opaque := fun px py => opaque s px (get_height s - 1 - py) |}.

Record Mask := mkMask {
  m_width : Z;
  m_height : Z;
  m_bit : Z -> Z -> bool
}.

Definition in_range (lo hi v : Z) : bool := (lo <=? v) && (v <? hi).

(** [pygame.mask.from_surface]: a bit is set where the pixel is opaque. *)
Definition mask_from_surface (s : Surface) : Mask :=
  {| m_width := get_width s;
     m_height := get_height s;
     m_bit := fun px py =>
       in_range 0 (get_width s) px && in_range 0 (get_height s) py
       && opaque s px py |}.

Definition get_at (m : Mask) (px py : Z) : bool :=
  in_range 0 (m_width m) px && in_range 0 (m_height m) py && m_bit m px py.

Definition zrange (n : Z) : list Z := map Z.of_nat (seq 0 (Z.to_nat n)).

(** [Mask.overlap(other, offset)]: the first point of this mask, in its own
    coordinates, whose bit is set and which lies on a set bit of [other]
    placed at [offset]; [None] when there is none. *)
Definition overlap (m other : Mask) (offset : Z * Z) : option (Z * Z) :=
  let '(ox, oy) := offset in
  find (fun p => get_at m (fst p) (snd p)
                 && get_at other (fst p - ox) (snd p - oy))
       (list_prod (zrange (m_width m)) (zrange (m_height m))).

(** Truth value of an [overlap] result: [None] is false and every point,
    also (0, 0), is a non-empty tuple and so true. *)
Definition truthy {A} (o : option A) : bool :=
  match o with Some _ => true | None => false end.

(** ** Assets *)

Record Assets := mkAssets {
  BIRD_IMG0 : Surface;
  BIRD_IMG1 : Surface;
  BIRD_IMG2 : Surface;
  PIPE_IMG : Surface
}.

(** ** Configuration constants *)

Definition FLOOR : Z := 730.

Module Bird.

Definition MAX_ROTATION : Z := 25.
Definition ROT_VEL : Z := 20.
Definition ANIMATION_TIME : Z := 5.

Record t := mk {
  x : Z;
  y : Q;
  tilt : Z;
  tick_count : Z;
  vel : Q;
  height : Q;
  img_count : Z;
  img : Surface
}.

Definition init (IMGS : Assets) (x0 y0 : Z) : t :=
  {| x := x0; y := inject_Z y0; tilt := 0; tick_count := 0; vel := 0;
     height := inject_Z y0; img_count := 0; img := BIRD_IMG0 IMGS |}.

Definition jump (b : t) : t :=
  {| x := x b; y := y b; tilt := tilt b;
     tick_count := 0;
     vel := -10.5;
     height := y b;
     img_count := img_count b; img := img b |}.

(** The displacement of one frame, lines 78-89 of [move], from the
    velocity and the tick counter before the increment. *)
Definition displacement (v : Q) (tc : Z) : Q :=
  let t := tc + 1 in
  let d := (v * inject_Z t + 1.5 * inject_Z (t ^ 2))%Q in
  let d := if Qle_bool 16 d then 16%Q else d in
  if Qltb d 0 then (d - 2)%Q else d.

Definition move (b : t) : t :=
  let d := displacement (vel b) (tick_count b) in
  let y' := (y b + d)%Q in
  let tilt' :=
    if Qltb d 0 || Qltb y' (height b + 50)
    then (if tilt b <? MAX_ROTATION then MAX_ROTATION else tilt b)
    else (if -90 <? tilt b then tilt b - ROT_VEL else tilt b) in
  {| x := x b; y := y'; tilt := tilt';
     tick_count := tick_count b + 1;
     vel := vel b; height := height b;
     img_count := img_count b; img := img b |}.

(** The state [draw] keeps: the animation counter and the current image. *)
Definition draw (IMGS : Assets) (b : t) : t :=
  let c := img_count b + 1 in
  let '(i, c) :=
    if c <? ANIMATION_TIME then (BIRD_IMG0 IMGS, c)
    else if c <? ANIMATION_TIME * 2 then (BIRD_IMG1 IMGS, c)
    else if c <? ANIMATION_TIME * 3 then (BIRD_IMG2 IMGS, c)
    else if c <? ANIMATION_TIME * 4 then (BIRD_IMG1 IMGS, c)
    else if c =? ANIMATION_TIME * 4 + 1 then (BIRD_IMG0 IMGS, 0)
    else (img b, c) in
  let '(i, c) :=
    if tilt b <=? -80 then (BIRD_IMG1 IMGS, ANIMATION_TIME * 2)
    else (i, c) in
  {| x := x b; y := y b; tilt := tilt b; tick_count := tick_count b;
     vel := vel b; height := height b; img_count := c; img := i |}.

Definition get_mask (b : t) : Mask := mask_from_surface (img b).

End Bird.

(** ** The random source *)

(** The stream of raw draws of the [random] module; [randrange] consumes
    one of them. *)
Definition Rng := nat -> Z.

Definition randrange (lo hi : Z) (r : Rng) : Z * Rng :=
  (lo + r O mod (hi - lo), fun n => r (S n)).

Module Pipe.

Definition GAP : Z := 200.
Definition VEL : Z := 5.

(** [PIPE_TOP] and [PIPE_BOTTOM] are set once in [__init__] from the
    global [PIPE_IMG] and never change: they are read from the assets. *)
Record t := mk {
  x : Z;
  height : Z;
  top : Z;
  bottom : Z;
  passed : bool
}.

Definition PIPE_TOP (A : Assets) : Surface := flip_vertical (PIPE_IMG A).
Definition PIPE_BOTTOM (A : Assets) : Surface := PIPE_IMG A.

(** [set_height], with the value drawn by [random.randrange(50, 450)]. *)
Definition set_height (A : Assets) (h : Z) (p : t) : t :=
  {| x := x p;
     height := h;
     top := h - get_height (PIPE_TOP A);
     bottom := h + GAP;
     passed := passed p |}.

Definition init (A : Assets) (x0 : Z) (r : Rng) : t * Rng :=
  let '(h, r') := randrange 50 450 r in
  (set_height A h
     {| x := x0; height := 0; top := 0; bottom := 0; passed := false |},
   r').

Definition move (p : t) : t :=
  {| x := x p - VEL; height := height p; top := top p;
     bottom := bottom p; passed := passed p |}.

Definition set_passed (p : t) : t :=
  {| x := x p; height := height p; top := top p;
     bottom := bottom p; passed := true |}.

Definition collide (A : Assets) (p : t) (b : Bird.t) : bool :=
  let bird_mask := Bird.get_mask b in
  let top_mask := mask_from_surface (PIPE_TOP A) in
  let bottom_mask := mask_from_surface (PIPE_BOTTOM A) in
  let top_offset := (x p - Bird.x b, top p - py_round (Bird.y b)) in
  let bottom_offset := (x p - Bird.x b, bottom p - py_round (Bird.y b)) in
  let t_point := overlap bird_mask top_mask top_offset in
  let b_point := overlap bird_mask bottom_mask bottom_offset in
  if truthy t_point || truthy b_point then true else false.

Definition eqb (p q : t) : bool :=
  (x p =? x q) && (height p =? height q) && (top p =? top q)
  && (bottom p =? bottom q) && Bool.eqb (passed p) (passed q).

End Pipe.

(** ** The cohort *)

(** The decision network of one genome: [activate] on the three inputs,
    read at [output[0]]. *)
Definition Obs : Type := Q * Q * Q.
Definition Net : Type := Obs -> Q.

(** The lists [birds], [nets] and [ge] are filled together (lines 341-343)
    and popped together at one index (lines 399-403 and 432-434): a cohort
    is the list of their rows.  A genome is named by its key; its fitness
    lives in the store, which outlives its row. *)
Record Agent := mkAgent {
  bird : Bird.t;
  net : Net;
  ge : nat
}.

Definition Store := nat -> float.

(** [genome.fitness += d] for the genome of key [g].  The fitness starts as
    the [int] 0 and is a [float] from the first [+= 0.1] on; an [int] is
    converted to the [float] of the same value before the operation, so the
    store holds that [float] throughout. *)
Definition fit_add (fit : Store) (g : nat) (d : float) : Store :=
  fun k => if Nat.eqb k g then (fit k + d)%float else fit k.

(** [genome.fitness -= d]. *)
Definition fit_sub (fit : Store) (g : nat) (d : float) : Store :=
  fun k => if Nat.eqb k g then (fit k - d)%float else fit k.

(** [l.pop(i)] for an index inside the list. *)
Definition pop {A} (i : nat) (l : list A) : list A :=
  firstn i l ++ skipn (S i) l.

(** ** Removing while enumerating

    Both death scans have the shape
    [for x, bird in enumerate(birds): if dead: ge[x].fitness -= 1; pop x]
    over the very lists they shrink.  The list iterator keeps an index: it
    yields [birds[x]] as long as [x < len(birds)] and then steps to [x + 1],
    whatever happened to the list meanwhile.  [body] is the rest of the
    loop body: whether the bird dies, and what it does to the loop's other
    variables. *)
Section EnumeratePop.

Context {L : Type}.
Variable body : L -> Agent -> bool * L.

Fixpoint scan (fuel i : nat) (st : L) (c : list Agent) (fit : Store)
  : L * list Agent * Store :=
  match fuel with
  | O => (st, c, fit)
  | S fuel' =>
      match nth_error c i with
      | None => (st, c, fit)
      | Some a =>
          let '(dead, st') := body st a in
          if dead
          then scan fuel' (S i) st' (pop i c) (fit_sub fit (ge a) 1)
          else scan fuel' (S i) st' c fit
      end
  end.

(** The index never passes the length it started from, so that many
    steps are enough. *)
Definition enumerate_pop (st : L) (c : list Agent) (fit : Store)
  : L * list Agent * Store :=
  scan (length c) 0 st c fit.

(** The same loop by recursion on the list: after a removal the next row
    slides into the freed index and is stepped over. *)
Fixpoint sweep (st : L) (c : list Agent) (fit : Store)
  : L * list Agent * Store :=
  match c with
  | [] => (st, [], fit)
  | a :: r =>
      let '(dead, st') := body st a in
      if dead then
        match r with
        | [] => (st', [], fit_sub fit (ge a) 1)
        | b :: r' =>
            let '(st'', c', fit') :=
              sweep st' r' (fit_sub fit (ge a) 1) in
            (st'', b :: c', fit')
        end
      else
        let '(st'', c', fit') := sweep st' r fit in
        (st'', a :: c', fit')
  end.

End EnumeratePop.

(** ** The game loop of [eval_genomes] *)

Record State := mkState {
  cohort : list Agent;
  fitness : Store;
  pipes : list Pipe.t;
  score : Z;
  rng : Rng
}.

Definition with_bird (a : Agent) (b : Bird.t) : Agent :=
  {| bird := b; net := net a; ge := ge a |}.

Definition gids (c : list Agent) : list nat := map ge c.

(** Lines 366-370: the index of the pipe the networks look at. *)
Definition pipe_ind (A : Assets) (birds : list Agent) (ps : list Pipe.t)
  : nat :=
  match birds with
  | [] => 0%nat
  | b0 :: _ =>
      match ps with
      | p0 :: _ :: _ =>
          if Pipe.x p0 + get_width (Pipe.PIPE_TOP A) <? Bird.x (bird b0)
          then 1%nat else 0%nat
      | _ => 0%nat
      end
  end.

(** The tuple handed to [activate] at lines 381-382. *)
Definition observation (b : Bird.t) (p : Pipe.t) : Obs :=
  (Bird.y b,
   Qabs (Bird.y b - inject_Z (Pipe.height p)),
   Qabs (Bird.y b - inject_Z (Pipe.bottom p))).

(** One call of a network, as the loop made it. *)
Record Call := mkCall {
  call_ge : nat;
  call_input : Obs;
  call_output : Q;
  call_jump : bool
}.

(** Lines 375-386.  [None] is the [IndexError] of [pipes[pipe_ind]]. *)
Fixpoint think (ps : list Pipe.t) (ind : nat) (c : list Agent) (fit : Store)
  : option (list Agent * Store * list Call) :=
  match c with
  | [] => Some ([], fit, [])
  | a :: r =>
      let b := Bird.move (bird a) in
      let fit := fit_add fit (ge a) 0.1 in
      match nth_error ps ind with
      | None => None
      | Some target =>
          let input := observation b target in
          let output := net a input in
          let jumps := Qltb 0.5 output in
          let b := if jumps then Bird.jump b else b in
          match think ps ind r fit with
          | None => None
          | Some (r', fit', log) =>
              Some (with_bird a b :: r', fit',
                    mkCall (ge a) input output jumps :: log)
          end
      end
  end.

(** Lines 396-408, the body of the collision scan: whether the bird has
    hit the pipe (the scan then takes the point and pops the row), and the
    pass test on the loop variables, the pipe with its [passed] flag and
    [add_pipe].  The pass test reads [bird], also when that bird was popped
    just before. *)
Definition collide_body (A : Assets) (st : Pipe.t * bool) (a : Agent)
  : bool * (Pipe.t * bool) :=
  let '(pipe, add_pipe) := st in
  (Pipe.collide A pipe (bird a),
   if negb (Pipe.passed pipe) && (Pipe.x pipe <? Bird.x (bird a))
   then (Pipe.set_passed pipe, true)
   else (pipe, add_pipe)).

(** Lines 391-412 for one pipe. *)
Definition pipe_step (A : Assets) (pipe : Pipe.t) (add_pipe : bool)
    (c : list Agent) (fit : Store) : Pipe.t * bool * list Agent * Store :=
  let '(pipe', add', c', fit') :=
    enumerate_pop (collide_body A) (Pipe.move pipe, add_pipe) c fit in
  (pipe', add', c', fit').

Definition off_screen (A : Assets) (p : Pipe.t) : bool :=
  Pipe.x p + get_width (Pipe.PIPE_TOP A) <? 0.

(** Lines 391-412: the pipes after the loop, the cohort, the store,
    [add_pipe] and [rem]. *)
Fixpoint pipes_loop (A : Assets) (ps : list Pipe.t) (c : list Agent)
    (fit : Store) (add_pipe : bool) (rem : list Pipe.t)
  : list Pipe.t * list Agent * Store * bool * list Pipe.t :=
  match ps with
  | [] => ([], c, fit, add_pipe, rem)
  | pipe :: ps' =>
      let '(pipe1, add1, c1, fit1) := pipe_step A pipe add_pipe c fit in
      let rem1 := if off_screen A pipe1 then rem ++ [pipe1] else rem in
      let '(ps2, c2, fit2, add2, rem2) :=
        pipes_loop A ps' c1 fit1 add1 rem1 in
      (pipe1 :: ps2, c2, fit2, add2, rem2)
  end.

(** Lines 419-420. *)
Fixpoint reward (c : list Agent) (fit : Store) : Store :=
  match c with
  | [] => fit
  | a :: r => reward r (fit_add fit (ge a) 5)
  end.

(** Lines 415-422. *)
Definition spawn (A : Assets) (add_pipe : bool) (sc : Z) (c : list Agent)
    (fit : Store) (ps : list Pipe.t) (r : Rng)
  : Z * Store * list Pipe.t * Rng :=
  if add_pipe then
    let '(p, r') := Pipe.init A 600 r in
    (sc + 1, reward c fit, ps ++ [p], r')
  else (sc, fit, ps, r).

(** [pipes.remove(pipe)]: the first equal entry goes. *)
Fixpoint remove_first (p : Pipe.t) (ps : list Pipe.t) : list Pipe.t :=
  match ps with
  | [] => []
  | q :: ps' => if Pipe.eqb p q then ps' else q :: remove_first p ps'
  end.

(** Lines 425-426. *)
Definition retire (rem ps : list Pipe.t) : list Pipe.t :=
  fold_left (fun acc p => remove_first p acc) rem ps.

(** The test of line 430. *)
Definition out_of_bounds (b : Bird.t) : bool :=
  Qle_bool (inject_Z FLOOR)
           (Bird.y b + inject_Z (get_height (Bird.img b)))
  || Qltb (Bird.y b) 0.

Definition bounds_body (st : unit) (a : Agent) : bool * unit :=
  (out_of_bounds (bird a), st).

(** Lines 428-434. *)
Definition bounds_scan (c : list Agent) (fit : Store)
  : list Agent * Store :=
  let '(_, c', fit') := enumerate_pop bounds_body tt c fit in (c', fit').

(** [draw_window], as far as it changes the birds. *)
Definition draw_window (A : Assets) (c : list Agent) : list Agent :=
  map (fun a => with_bird a (Bird.draw A (bird a))) c.

Inductive Outcome :=
| Running (s : State)
| Terminated (s : State)
| IndexError.

(** One pass through the body of [while run] (lines 355-437). *)
Definition tick (A : Assets) (s : State) : Outcome :=
  match cohort s with
  | [] => Terminated s
  | _ :: _ =>
      let ind := pipe_ind A (cohort s) (pipes s) in
      match think (pipes s) ind (cohort s) (fitness s) with
      | None => IndexError
      | Some (c1, fit1, _) =>
          let '(ps1, c2, fit2, add_pipe, rem) :=
            pipes_loop A (pipes s) c1 fit1 false [] in
          let '(sc3, fit3, ps3, r3) :=
            spawn A add_pipe (score s) c2 fit2 ps1 (rng s) in
          let ps4 := retire rem ps3 in
          let '(c5, fit5) := bounds_scan c2 fit3 in
          Running {| cohort := draw_window A c5;
                     fitness := fit5;
                     pipes := ps4;
                     score := sc3;
                     rng := r3 |}
      end
  end.

(** Lines 333-351: the state the loop starts from.  [create] stands for
    [neat.nn.FeedForwardNetwork.create(genome, config)]. *)
Definition start (A : Assets) (genomes : list nat) (create : nat -> Net)
    (fit0 : Store) (r : Rng) : State :=
  let '(p, r') := Pipe.init A 600 r in
  {| cohort :=
       map (fun g => {| bird := Bird.init A 230 350;
                        net := create g; ge := g |}) genomes;
     fitness :=
       fun k => if existsb (Nat.eqb k) genomes then 0%float else fit0 k;
     pipes := [p];
     score := 0;
     rng := r' |}.

(** The loop run for at most [n] iterations. *)
Fixpoint run (A : Assets) (n : nat) (s : State) : State :=
  match n with
  | O => s
  | S n' =>
      match tick A s with
      | Running s' => run A n' s'
      | _ => s
      end
  end.

(** ** Derived notions

    Functions that describe what the loops above compute; the facts below
    relate them to the loops. *)

(** What lines 376-386 do to one row once the target pipe is known. *)
Definition decide (target : Pipe.t) (a : Agent) : Agent * Call :=
  let b := Bird.move (bird a) in
  let input := observation b target in
  let output := net a input in
  let jumps := Qltb 0.5 output in
  (with_bird a (if jumps then Bird.jump b else b),
   mkCall (ge a) input output jumps).

(** The three bookings of the loop, on one fitness value: [+= 0.1] (line
    378), [+= 5] (line 420) and [-= 1] (lines 400 and 432). *)
Definition survival (f : float) : float := (f + 0.1)%float.
Definition pass_reward (f : float) : float := (f + 5)%float.
Definition penalty (f : float) : float := (f - 1)%float.

(** How many rows of the cohort belong to genome [g]. *)
Fixpoint occ (g : nat) (c : list Agent) : nat :=
  match c with
  | [] => O
  | a :: r => ((if Nat.eqb g (ge a) then 1 else 0) + occ g r)%nat
  end.

Definition alive (g : nat) (c : list Agent) : bool :=
  existsb (Nat.eqb g) (gids c).

Inductive subseq {A : Type} : list A -> list A -> Prop :=
| subseq_nil : subseq [] []
| subseq_skip a l' l : subseq l' l -> subseq l' (a :: l)
| subseq_keep a l' l : subseq l' l -> subseq (a :: l') (a :: l).

(** The rows a removing scan yields, for a death test [dies]: the row right
    behind a removed one is not among them. *)
Fixpoint visited (dies : Agent -> bool) (c : list Agent) : list Agent :=
  match c with
  | [] => []
  | a :: r =>
      a :: (if dies a
            then match r with [] => [] | _ :: r' => visited dies r' end
            else visited dies r)
  end.

(** Whether the removing scan yields index [i] of the list it starts on:
    index 0 always; the index behind a row that dies never, and the one
    behind that again; the index behind a row that stays. *)
Fixpoint reached (dies : Agent -> bool) (c : list Agent) (i : nat) : bool :=
  match c, i with
  | [], _ => false
  | _ :: _, O => true
  | a :: r, S i' =>
      if dies a then
        match r, i' with
        | _ :: r', S i'' => reached dies r' i''
        | _, _ => false
        end
      else reached dies r i'
  end.


Definition hits (A : Assets) (p : Pipe.t) (a : Agent) : bool :=
  Pipe.collide A p (bird a).


Definition behind (p : Pipe.t) (a : Agent) : bool :=
  Pipe.x p <? Bird.x (bird a).

(** Some row the scan of pipe [p] yields has the pipe behind it. *)
Definition overtaken (A : Assets) (p : Pipe.t) (c : list Agent) : bool :=
  existsb (behind p) (visited (hits A p) c).

(** What the scan of one pipe leaves of the pipe itself. *)
Definition scanned (A : Assets) (p : Pipe.t) (c : list Agent) : Pipe.t :=
  if negb (Pipe.passed p) && overtaken A (Pipe.move p) c
  then Pipe.set_passed (Pipe.move p) else Pipe.move p.

(** The flag of [p] goes from unset to set. *)
Definition flips (p p' : Pipe.t) : bool :=
  negb (Pipe.passed p) && Pipe.passed p'.

Definition spawned (A : Assets) (add : bool) (s : State) (ps1 : list Pipe.t)
  : list Pipe.t :=
  if add then ps1 ++ [fst (Pipe.init A 600 (rng s))] else ps1.

(** The pass reward of the tick that starts in [s] reaches genome [g]: the
    signal is raised and [g] is still in the cohort after the collision
    scans. *)
Definition rewarded (A : Assets) (s : State) (g : nat) : bool :=
  match think (pipes s) (pipe_ind A (cohort s) (pipes s))
              (cohort s) (fitness s) with
  | Some (c1, fit1, _) =>
      let '(_, c2, _, add_pipe, _) :=
        pipes_loop A (pipes s) c1 fit1 false [] in
      add_pipe && alive g c2
  | None => false
  end.

(** Among the first [n] ticks from [s], those at whose start [g] is in the
    cohort. *)
Fixpoint ticks_alive (A : Assets) (n : nat) (s : State) (g : nat) : nat :=
  match n with
  | O => O
  | S n' =>
      match tick A s with
      | Running s' =>
          ((if alive g (cohort s) then 1 else 0) + ticks_alive A n' s' g)%nat
      | _ => O
      end
  end.

(** Among the first [n] ticks from [s], those whose pass reward reaches
    [g]. *)
Fixpoint passes_seen (A : Assets) (n : nat) (s : State) (g : nat) : nat :=
  match n with
  | O => O
  | S n' =>
      match tick A s with
      | Running s' =>
          ((if rewarded A s g then 1 else 0) + passes_seen A n' s' g)%nat
      | _ => O
      end
  end.

(** What a tick books for one genome, in the order of the loop body: the
    survival reward when its row is in the cohort at the start (line 378),
    the pass reward when it reaches the genome (line 420), the penalty when
    the row was there at the start and is gone at the end (line 400 or
    432). *)
Inductive Event := Survived | Passed | Died.

Definition book (f : float) (e : Event) : float :=
  match e with
  | Survived => survival f
  | Passed => pass_reward f
  | Died => penalty f
  end.

Definition tick_events (live paid stays : bool) : list Event :=
  (if live then [Survived] else [])
  ++ (if paid then [Passed] else [])
  ++ (if live && negb stays then [Died] else []).

(** The bookings of the first [n] ticks from [s] for genome [g]. *)
Fixpoint events (A : Assets) (n : nat) (s : State) (g : nat) : list Event :=
  match n with
  | O => []
  | S n' =>
      match tick A s with
      | Running s' =>
          tick_events (alive g (cohort s)) (rewarded A s g)
                      (alive g (cohort s'))
          ++ events A n' s' g
      | _ => []
      end
  end.

Definition is_event (e e' : Event) : bool :=
  match e, e' with
  | Survived, Survived | Passed, Passed | Died, Died => true
  | _, _ => false
  end.

Definition count (e : Event) (evs : list Event) : nat :=
  length (filter (is_event e) evs).

(** The last pipe of the stream is still to be passed. *)
Definition last_open (bx : Z) (ps : list Pipe.t) : Prop :=
  exists l p, ps = l ++ [p] /\ Pipe.passed p = false /\ bx <= Pipe.x p.

(** ** The wording of the specification

    Statements of the specification that the code does not satisfy as they
    stand, written down to be compared with the code. *)

(** The lookahead rule in the words of the specification: the first active
    pipe, unless it is flagged as passed and a second one exists. *)
Definition spec_target (ps : list Pipe.t) : option Pipe.t :=
  match ps with
  | [] => None
  | [p0] => Some p0
  | p0 :: p1 :: _ => if Pipe.passed p0 then Some p1 else Some p0
  end.

(** The pairwise reading of the claim: of any two neighbours that are both
    out of bounds, the first goes and the second stays. *)
Definition spec_pairwise_skip (c : list Agent) (fit : Store) : Prop :=
  forall i a b,
    nth_error c i = Some a -> nth_error c (S i) = Some b ->
    out_of_bounds (bird a) = true -> out_of_bounds (bird b) = true ->
    ~ In (ge a) (gids (fst (bounds_scan c fit))) /\
    In (ge b) (gids (fst (bounds_scan c fit))).

(** The signal of the tick that starts in [s]. *)
Definition signalled (A : Assets) (s : State) : bool :=
  match think (pipes s) (pipe_ind A (cohort s) (pipes s))
              (cohort s) (fitness s) with
  | Some (c1, fit1, _) =>
      let '(_, _, _, add_pipe, _) :=
        pipes_loop A (pipes s) c1 fit1 false [] in
      add_pipe
  | None => false
  end.

(** The pass events of the claim as stated: among the first [n] ticks, those
    in which a pipe is passed while [g] is in the cohort the tick starts
    with. *)
Fixpoint passes_while_live (A : Assets) (n : nat) (s : State) (g : nat)
  : nat :=
  match n with
  | O => O
  | S n' =>
      match tick A s with
      | Running s' =>
          ((if signalled A s && alive g (cohort s) then 1 else 0)
           + passes_while_live A n' s' g)%nat
      | _ => O
      end
  end.

(** ** Sample data

    Surfaces with the sizes of the scaled sprites the game is usually run
    with: a 68x48 bird in three frames (wing up, level, down) and a 104x640
    pipe. *)

Definition bird_frame (wing_lo wing_hi : Z) : Surface :=
  {| get_width := 68; get_height := 48;
     opaque := fun px py =>
       in_range 8 40 py
       || (in_range wing_lo wing_hi py && in_range 10 30 px) |}.

Definition sample_assets : Assets :=
  {| BIRD_IMG0 := bird_frame 0 8;
     BIRD_IMG1 := bird_frame 20 28;
     BIRD_IMG2 := bird_frame 40 48;
     PIPE_IMG := {| get_width := 104; get_height := 640;
                    opaque := fun _ _ => true |} |}.

Definition sample_rng : Rng := fun _ => 123.

Definition never_jumps : Net := fun _ => 0%Q.
Definition always_jumps : Net := fun _ => 1%Q.

Definition sample_bird (tilt img_count : Z) (img : Surface) : Bird.t :=
  {| Bird.x := 230; Bird.y := 255; Bird.tilt := tilt; Bird.tick_count := 3;
     Bird.vel := -10.5; Bird.height := 260;
     Bird.img_count := img_count; Bird.img := img |}.

Definition sample_pipe (x : Z) (h : Z) (passed : bool) : Pipe.t :=
  {| Pipe.x := x; Pipe.height := h; Pipe.top := h - 640;
     Pipe.bottom := h + 200; Pipe.passed := passed |}.

Definition sample_agent (g : nat) (n : Net) (b : Bird.t) : Agent :=
  {| bird := b; net := n; ge := g |}.

(** A bird that stands exactly on the floor line. *)
Definition floor_bird : Bird.t :=
  {| Bird.x := 230; Bird.y := 682; Bird.tilt := -35; Bird.tick_count := 9;
     Bird.vel := 0; Bird.height := 350; Bird.img_count := 4;
     Bird.img := BIRD_IMG0 sample_assets |}.

(** A bird above the top of the window. *)
Definition high_bird : Bird.t :=
  {| Bird.x := 230; Bird.y := -1.5; Bird.tilt := 25; Bird.tick_count := 0;
     Bird.vel := -10.5; Bird.height := 9.5; Bird.img_count := 7;
     Bird.img := BIRD_IMG1 sample_assets |}.

(** A state in which the only pipe is about to fall behind the bird. *)
Definition passing_state : State :=
  {| cohort := [sample_agent 1 never_jumps (Bird.init sample_assets 230 350)];
     fitness := fun _ => 0%float;
     pipes := [sample_pipe 230 250 false];
     score := 0;
     rng := sample_rng |}.

(** A state ten ticks before a crash: one pipe about to be flagged, one
    that reaches the falling bird in the tenth tick. *)
Definition crash_state : State :=
  {| cohort := [sample_agent 7 never_jumps (Bird.init sample_assets 230 350)];
     fitness := fun _ => 0%float;
     pipes := [sample_pipe 100 250 false; sample_pipe 345 250 false];
     score := 0;
     rng := sample_rng |}.

(** Two birds at a pipe that falls behind them in the coming tick: the
    first flies through the gap, the second into the upper piece. *)
Definition forfeit_state : State :=
  {| cohort := [sample_agent 1 never_jumps (Bird.init sample_assets 230 350);
                sample_agent 2 never_jumps (Bird.init sample_assets 230 100)];
     fitness := fun _ => 0%float;
     pipes := [sample_pipe 230 250 false];
     score := 0;
     rng := sample_rng |}.

(** ** The floor *)

(** [Base.WIDTH] is the width of the floor image, which is not part of the
    sources: the functions take it as an argument. *)
Module Base.

Definition VEL : Z := 5.

Record t := mk {
  y : Z;
  x1 : Z;
  x2 : Z
}.

Definition init (WIDTH : Z) (y0 : Z) : t :=
  {| y := y0; x1 := 0; x2 := WIDTH |}.

Definition move (WIDTH : Z) (b : t) : t :=
  let x1 := x1 b - VEL in
  let x2 := x2 b - VEL in
  let x1 := if x1 + WIDTH <? 0 then x2 + WIDTH else x1 in
  let x2 := if x2 + WIDTH <? 0 then x1 + WIDTH else x2 in
  {| y := y b; x1 := x1; x2 := x2 |}.

(** The screen column [px] lies on the image drawn at [x]. *)
Definition on_image (WIDTH x px : Z) : Prop := x <= px < x + WIDTH.

End Base.

(** ** A bird's life *)

(** The three methods the loop calls on a bird. *)
Inductive BirdOp := OpJump | OpMove | OpDraw.

Definition bird_step (A : Assets) (b : Bird.t) (o : BirdOp) : Bird.t :=
  match o with
  | OpJump => Bird.jump b
  | OpMove => Bird.move b
  | OpDraw => Bird.draw A b
  end.

(** [Bird(x0, y0)] after the calls [ops], in order. *)
Definition bird_after (A : Assets) (x0 y0 : Z) (ops : list BirdOp) : Bird.t :=
  fold_left (bird_step A) ops (Bird.init A x0 y0).

(** The sum of the displacements of [n] calls of [move] in a row, from
    tick counter [tc]. *)
Fixpoint sum_displacement (v : Q) (tc : Z) (n : nat) : Q :=
  match n with
  | O => 0
  | S n' => Bird.displacement v tc + sum_displacement v (tc + 1) n'
  end.

(** ** Pixels on the screen *)

(** The surface [s] drawn with its corner at ([left], [top]) has an opaque
    pixel at the screen point ([X], [Y]). *)
Definition shown (s : Surface) (left top X Y : Z) : bool :=
  get_at (mask_from_surface s) (X - left) (Y - top).

(** ** The shape of the pipe stream *)

(** One pipe still to be passed, or a passed pipe followed, some 375
    further right, by one still to be passed. *)
Definition stream_shape (ps : list Pipe.t) : Prop :=
  (exists p, ps = [p] /\ Pipe.passed p = false /\ 230 <= Pipe.x p) \/
  (exists p0 p1,
      ps = [p0; p1] /\ Pipe.passed p0 = true /\ Pipe.passed p1 = false /\
      230 <= Pipe.x p1 /\ 370 < Pipe.x p1 - Pipe.x p0 <= 375).

Definition on_screen (A : Assets) (p : Pipe.t) : bool :=
  negb (off_screen A p).

Definition is_jump (o : BirdOp) : bool :=
  match o with OpJump => true | _ => false end.

(** The stream has this shape as long as an agent is left; when the last
    agent has gone it still holds at most two pipes. *)
Definition stream_ok (s : State) : Prop :=
  (cohort s = [] /\ (length (pipes s) <= 2)%nat) \/ stream_shape (pipes s).

(** The signals of the first [n] iterations from [s], in order. *)
Fixpoint signals (A : Assets) (n : nat) (s : State) : list bool :=
  match n with
  | O => []
  | S n' =>
      match tick A s with
      | Running s' => signalled A s :: signals A n' s'
      | _ => []
      end
  end.

(** What one iteration books for a genome that outlives it, [up] telling
    whether the signal was raised. *)
Definition outlived (f : float) (up : bool) : float :=
  if up then (f + 0.1 + 5)%float else (f + 0.1)%float.

(** The frame the animation counter stands for. *)
Definition frame_of (A : Assets) (c : Z) : Surface :=
  if c <? 5 then BIRD_IMG0 A
  else if c <? 10 then BIRD_IMG1 A
  else if c <? 15 then BIRD_IMG2 A
  else BIRD_IMG1 A.

(** * Facts *)

(** ** Comparisons and rounding *)

Lemma Qltb_lt (a b : Q) : Qltb a b = true <-> (a < b)%Q.
Proof.
  unfold Qltb. rewrite negb_true_iff. split; intro H.
  - apply Qnot_le_lt. intro L. apply Qle_bool_iff in L. congruence.
  - destruct (Qle_bool b a) eqn:E; [|reflexivity].
    apply Qle_bool_iff in E. exfalso. exact (Qlt_not_le _ _ H E).
Qed.

#[global] Instance Qltb_comp : Proper (Qeq ==> Qeq ==> eq) Qltb.
Proof.
  intros a a' Ha b b' Hb. unfold Qltb. f_equal.
  destruct (Qle_bool b a) eqn:E, (Qle_bool b' a') eqn:E'; try reflexivity.
  - apply Qle_bool_iff in E. rewrite Ha, Hb in E.
    apply Qle_bool_iff in E. congruence.
  - apply Qle_bool_iff in E'. rewrite <- Ha, <- Hb in E'.
    apply Qle_bool_iff in E'. congruence.
Qed.

#[global] Instance Qle_bool_comp : Proper (Qeq ==> Qeq ==> eq) Qle_bool.
Proof.
  intros a a' Ha b b' Hb.
  destruct (Qle_bool a b) eqn:E, (Qle_bool a' b') eqn:E'; try reflexivity.
  - apply Qle_bool_iff in E. rewrite Ha, Hb in E.
    apply Qle_bool_iff in E. congruence.
  - apply Qle_bool_iff in E'. rewrite <- Ha, <- Hb in E'.
    apply Qle_bool_iff in E'. congruence.
Qed.

#[global] Instance py_round_comp : Proper (Qeq ==> eq) py_round.
Proof.
  intros a b H. unfold py_round.
  rewrite (Qfloor_comp _ _ H).
  assert (E : (a - inject_Z (Qfloor b) == b - inject_Z (Qfloor b))%Q)
    by (rewrite H; reflexivity).
  rewrite !(Qltb_comp _ _ E _ _ (Qeq_refl _)).
  rewrite !(Qltb_comp _ _ (Qeq_refl _) _ _ E).
  reflexivity.
Qed.

(** ** Lists *)

Lemma pop_app {A} (l1 : list A) (a : A) (r : list A) :
  pop (length l1) (l1 ++ a :: r) = l1 ++ r.
Proof.
  unfold pop. induction l1 as [|h l1 IH]; [reflexivity|].
  cbn [length app firstn skipn]. cbn [skipn] in IH.
  now rewrite IH.
Qed.

Lemma nth_error_middle {A} (l1 : list A) (r : list A) :
  nth_error (l1 ++ r) (length l1) = nth_error r 0.
Proof.
  rewrite nth_error_app2 by lia. now rewrite Nat.sub_diag.
Qed.

(** Two elements at a time, the way a removing scan walks a list. *)
Lemma list_pair_ind {A} (P : list A -> Prop) :
  P [] ->
  (forall a, P [a]) ->
  (forall a b r, P r -> P (b :: r) -> P (a :: b :: r)) ->
  forall l, P l.
Proof.
  intros H0 H1 H2 l.
  enough (H : P l /\ forall a, P (a :: l)) by apply H.
  induction l as [|b r [IH1 IH2]]; split; auto.
Qed.

(** ** The removing scan *)

Section EnumeratePopFacts.

Context {L : Type}.
Variable body : L -> Agent -> bool * L.

Lemma scan_stop fuel i st c fit :
  nth_error c i = None -> scan body fuel i st c fit = (st, c, fit).
Proof.
  intro H. destruct fuel; simpl; [reflexivity|]. now rewrite H.
Qed.

Lemma scan_app fuel : forall l1 rest st fit,
  (length rest <= fuel)%nat ->
  scan body fuel (length l1) st (l1 ++ rest) fit =
  let '(st', c', fit') := sweep body st rest fit in (st', l1 ++ c', fit').
Proof.
  induction fuel as [|fuel IH]; intros l1 rest st fit Hf.
  - destruct rest; [|simpl in Hf; lia]. reflexivity.
  - cbn [scan]. rewrite nth_error_middle.
    destruct rest as [|a r]; [reflexivity|].
    cbn [nth_error sweep]. simpl in Hf.
    destruct (body st a) as [dead st']. destruct dead.
    + rewrite pop_app. destruct r as [|b r'].
      * rewrite scan_stop; [reflexivity|].
        apply nth_error_None. rewrite app_nil_r. lia.
      * simpl in Hf.
        replace (S (length l1)) with (length (l1 ++ [b]))
          by (rewrite length_app; simpl; lia).
        replace (l1 ++ b :: r') with ((l1 ++ [b]) ++ r')
          by (rewrite <- app_assoc; reflexivity).
        rewrite IH by lia.
        destruct (sweep body st' r' _) as [[st'' c'] fit'].
        now rewrite <- app_assoc.
    + replace (S (length l1)) with (length (l1 ++ [a]))
        by (rewrite length_app; simpl; lia).
      replace (l1 ++ a :: r) with ((l1 ++ [a]) ++ r)
        by (rewrite <- app_assoc; reflexivity).
      rewrite IH by lia.
      destruct (sweep body st' r _) as [[st'' c'] fit'].
      now rewrite <- app_assoc.
Qed.

(** The fuel given to the loop is enough: it computes the sweep, and so
    does any larger amount. *)
Lemma enumerate_pop_sweep st c fit :
  enumerate_pop body st c fit = sweep body st c fit.
Proof.
  unfold enumerate_pop.
  pose proof (scan_app (length c) [] c st fit (le_n _)) as H.
  cbn [length app] in H. rewrite H.
  now destruct (sweep body st c fit) as [[? ?] ?].
Qed.

Lemma scan_enough fuel st c fit :
  (length c <= fuel)%nat ->
  scan body fuel 0 st c fit = enumerate_pop body st c fit.
Proof.
  intro H. rewrite enumerate_pop_sweep.
  pose proof (scan_app fuel [] c st fit H) as E.
  cbn [length app] in E. rewrite E.
  now destruct (sweep body st c fit) as [[? ?] ?].
Qed.

End EnumeratePopFacts.

(** ** Bird physics *)

Lemma displacement_le_16 (v : Q) (tc : Z) : (Bird.displacement v tc <= 16)%Q.
Proof.
  unfold Bird.displacement.
  set (d := (v * inject_Z (tc + 1) + 1.5 * inject_Z ((tc + 1) ^ 2))%Q).
  destruct (Qle_bool 16 d) eqn:E.
  - change (Qltb 16 0) with false. cbv iota. lra.
  - assert (H : (d < 16)%Q).
    { apply Qnot_le_lt. intro L. apply Qle_bool_iff in L. congruence. }
    destruct (Qltb d 0); lra.
Qed.

Lemma move_displacement (b : Bird.t) :
  (Bird.y (Bird.move b) - Bird.y b ==
   Bird.displacement (Bird.vel b) (Bird.tick_count b))%Q.
Proof. unfold Bird.move. cbn [Bird.y]. ring. Qed.

Lemma iter_move_tick_count (n : nat) (b : Bird.t) :
  Bird.tick_count (Nat.iter n Bird.move b) = Bird.tick_count b + Z.of_nat n.
Proof.
  induction n as [|n IH]; [cbn; lia|].
  rewrite Nat.iter_succ. unfold Bird.move at 1. cbn [Bird.tick_count]. lia.
Qed.

Lemma iter_move_vel (n : nat) (b : Bird.t) :
  Bird.vel (Nat.iter n Bird.move b) = Bird.vel b.
Proof.
  induction n as [|n IH]; [reflexivity|]. rewrite Nat.iter_succ. exact IH.
Qed.

(** C6.  From any bird state, for example right after a jump, the [t]-th
    call of [move] in a row ([t >= 1], no jump in between) works with tick
    counter [t] more than at the start, uses the displacement formula at
    that counter, and changes the vertical position by at most 16. *)
Theorem terminal_velocity_clamp (b : Bird.t) (t : nat) :
  (1 <= t)%nat ->
  let before := Nat.iter (t - 1) Bird.move b in
  let after := Bird.move before in
  Bird.tick_count after = Bird.tick_count b + Z.of_nat t /\
  (Bird.y after - Bird.y before ==
   Bird.displacement (Bird.vel b) (Bird.tick_count b + Z.of_nat t - 1))%Q /\
  (Bird.y after - Bird.y before <= 16)%Q.
Proof.
  intros Ht before after. subst after.
  pose proof (iter_move_tick_count (t - 1) b) as Htc.
  pose proof (iter_move_vel (t - 1) b) as Hv.
  fold before in Htc, Hv.
  split; [|split].
  - unfold Bird.move. cbn [Bird.tick_count]. lia.
  - rewrite move_displacement, Hv, Htc.
    replace (Bird.tick_count b + Z.of_nat (t - 1))
      with (Bird.tick_count b + Z.of_nat t - 1) by lia.
    reflexivity.
  - rewrite move_displacement. apply displacement_le_16.
Qed.

Lemma terminal_velocity_clamp_witness :
  let b := Bird.jump (Bird.init sample_assets 230 350) in
  let before := Nat.iter 5 Bird.move b in
  (1 <= 6)%nat /\
  (Bird.y (Bird.move before) - Bird.y before <= 16)%Q.
Proof.
  intros b before. split; [lia|].
  exact (proj2 (proj2 (terminal_velocity_clamp b 6 ltac:(lia)))).
Defined.

(** ** Pipes *)

Lemma randrange_bounds (lo hi : Z) (r : Rng) :
  lo < hi -> lo <= fst (randrange lo hi r) < hi.
Proof.
  intro H. unfold randrange. cbn [fst].
  pose proof (Z.mod_pos_bound (r O) (hi - lo) ltac:(lia)). lia.
Qed.

Lemma iter_pipe_move (n : nat) (p : Pipe.t) :
  Pipe.x (Nat.iter n Pipe.move p) = Pipe.x p - Pipe.VEL * Z.of_nat n /\
  Pipe.height (Nat.iter n Pipe.move p) = Pipe.height p /\
  Pipe.top (Nat.iter n Pipe.move p) = Pipe.top p /\
  Pipe.bottom (Nat.iter n Pipe.move p) = Pipe.bottom p /\
  Pipe.passed (Nat.iter n Pipe.move p) = Pipe.passed p.
Proof.
  induction n as [|n IH].
  - cbn. repeat split. lia.
  - rewrite Nat.iter_succ. unfold Pipe.move at 1 3 5 7 9.
    cbn [Pipe.x Pipe.height Pipe.top Pipe.bottom Pipe.passed].
    destruct IH as (? & ? & ? & ? & ?). repeat split; try assumption. lia.
Qed.

(** C2.  The two extents of a pipe are the edges of its gap: [height], the
    lower edge of the upper piece, which is what the networks are shown as
    the top extent, and [bottom], the upper edge of the lower piece.  For
    every pipe [Pipe(x0)] creates, at creation and after any number of
    moves, [bottom - height] is exactly [GAP]; [height] is in the spawn
    band [50, 450) and [bottom] in [250, 650), so both are within the band
    widened by [GAP].  The field [top] is not an extent of the gap but the
    position at which the upper image is drawn, the image height above
    [height]. *)
Theorem gap_invariant (A : Assets) (x0 : Z) (r : Rng) (n : nat) :
  let p := Nat.iter n Pipe.move (fst (Pipe.init A x0 r)) in
  Pipe.bottom p - Pipe.height p = Pipe.GAP /\
  50 <= Pipe.height p < 450 /\
  50 + Pipe.GAP <= Pipe.bottom p < 450 + Pipe.GAP /\
  Pipe.top p = Pipe.height p - get_height (PIPE_IMG A) /\
  Pipe.bottom p - Pipe.top p = Pipe.GAP + get_height (PIPE_IMG A).
Proof.
  intro p. subst p.
  destruct (iter_pipe_move n (fst (Pipe.init A x0 r)))
    as (_ & Hh & Ht & Hb & _).
  rewrite Hh, Ht, Hb.
  unfold Pipe.init.
  pose proof (randrange_bounds 50 450 r ltac:(lia)) as Hr.
  destruct (randrange 50 450 r) as [h r']. cbn [fst] in *.
  unfold Pipe.set_height, Pipe.PIPE_TOP, flip_vertical, Pipe.GAP.
  cbn [Pipe.height Pipe.top Pipe.bottom get_height].
  lia.
Qed.

(** ** Collision *)

(** C7, as the code has it.  [collide] reads the bird's [x], its [y] and
    its current image, and nothing else: two birds that agree on these get
    the same answer from every pipe, whatever their tilt, animation
    counter, velocity, tick counter and jump height. *)
Theorem collide_reads_position_and_image
    (A : Assets) (p : Pipe.t) (b1 b2 : Bird.t) :
  Bird.x b1 = Bird.x b2 ->
  (Bird.y b1 == Bird.y b2)%Q ->
  Bird.img b1 = Bird.img b2 ->
  Pipe.collide A p b1 = Pipe.collide A p b2.
Proof.
  intros Hx Hy Hi. unfold Pipe.collide, Bird.get_mask.
  rewrite Hx, Hi, (py_round_comp _ _ Hy). reflexivity.
Qed.

Lemma collide_reads_position_and_image_witness :
  let b1 := sample_bird 25 2 (BIRD_IMG0 sample_assets) in
  let b2 := sample_bird (-15) 0 (BIRD_IMG0 sample_assets) in
  Bird.x b1 = Bird.x b2 /\ (Bird.y b1 == Bird.y b2)%Q /\
  Bird.img b1 = Bird.img b2 /\
  Pipe.collide sample_assets (sample_pipe 230 100 false) b1 =
  Pipe.collide sample_assets (sample_pipe 230 100 false) b2.
Proof.
  intros b1 b2.
  assert (Hx : Bird.x b1 = Bird.x b2) by reflexivity.
  assert (Hy : (Bird.y b1 == Bird.y b2)%Q) by reflexivity.
  assert (Hi : Bird.img b1 = Bird.img b2) by reflexivity.
  split; [exact Hx|]. split; [exact Hy|]. split; [exact Hi|].
  exact (collide_reads_position_and_image sample_assets _ b1 b2 Hx Hy Hi).
Defined.

(** C7 as stated fails: two birds with the same position, velocity and
    tick counter, one shown with the wing up and one with the wing down.
    Only the lowered wing reaches into the lower pipe. *)
Lemma collide_depends_on_frame :
  let b1 := sample_bird 25 2 (BIRD_IMG0 sample_assets) in
  let b2 := sample_bird 25 12 (BIRD_IMG2 sample_assets) in
  let p := sample_pipe 230 100 false in
  Bird.x b1 = Bird.x b2 /\ Bird.y b1 = Bird.y b2 /\
  Bird.vel b1 = Bird.vel b2 /\ Bird.tick_count b1 = Bird.tick_count b2 /\
  Pipe.collide sample_assets p b1 = false /\
  Pipe.collide sample_assets p b2 = true.
Proof. vm_compute. repeat split. Qed.

(** ** The decision loop *)

Lemma think_target ps ind target :
  nth_error ps ind = Some target ->
  forall c fit,
    think ps ind c fit =
    Some (map (fun a => fst (decide target a)) c,
          fold_left (fun f a => fit_add f (ge a) 0.1) c fit,
          map (fun a => snd (decide target a)) c).
Proof.
  intros Ht c. induction c as [|a r IH]; intro fit; [reflexivity|].
  cbn [think]. rewrite Ht, IH. reflexivity.
Qed.

Lemma think_index_error ps ind a r fit :
  nth_error ps ind = None -> think ps ind (a :: r) fit = None.
Proof. intro H. cbn [think]. now rewrite H. Qed.

Lemma think_inv ps ind c fit c' fit' log :
  think ps ind c fit = Some (c', fit', log) ->
  c <> [] ->
  exists target,
    nth_error ps ind = Some target /\
    c' = map (fun a => fst (decide target a)) c /\
    fit' = fold_left (fun f a => fit_add f (ge a) 0.1) c fit /\
    log = map (fun a => snd (decide target a)) c.
Proof.
  intros H Hc. destruct (nth_error ps ind) as [target|] eqn:E.
  - exists target. rewrite (think_target _ _ _ E) in H.
    injection H as <- <- <-. auto.
  - destruct c as [|a r]; [congruence|].
    rewrite think_index_error in H by assumption. discriminate.
Qed.

(** C3, as the code has it.  Each live agent's network is called once per
    tick, on the observation of the moved bird, and [jump] is applied to
    that bird if and only if the output is strictly greater than 0.5. *)
Theorem jump_iff_above_threshold
    (ps : list Pipe.t) (ind : nat) (c : list Agent) (fit : Store)
    (c' : list Agent) (fit' : Store) (log : list Call)
    (i : nat) (a : Agent) :
  think ps ind c fit = Some (c', fit', log) ->
  nth_error c i = Some a ->
  exists call,
    nth_error log i = Some call /\
    length log = length c /\
    call_ge call = ge a /\
    call_output call = net a (call_input call) /\
    (call_jump call = true <-> (0.5 < call_output call)%Q) /\
    nth_error c' i =
      Some (with_bird a (if call_jump call
                         then Bird.jump (Bird.move (bird a))
                         else Bird.move (bird a))).
Proof.
  intros H Ha.
  assert (Hc : c <> []) by (destruct c; [destruct i; discriminate|discriminate]).
  destruct (think_inv _ _ _ _ _ _ _ H Hc) as (target & _ & -> & _ & ->).
  exists (snd (decide target a)).
  split; [now rewrite nth_error_map, Ha|].
  split; [apply length_map|].
  split; [reflexivity|]. split; [reflexivity|].
  split; [apply Qltb_lt|].
  now rewrite nth_error_map, Ha.
Qed.

Lemma jump_iff_above_threshold_witness :
  let a := sample_agent 1 always_jumps (Bird.init sample_assets 230 350) in
  let target := sample_pipe 600 100 false in
  let fit := fun _ : nat => 0%float in
  let log := [snd (decide target a)] in
  think [target] 0 [a] fit =
    Some ([fst (decide target a)], fit_add fit 1 0.1, log) /\
  nth_error [a] 0 = Some a /\
  exists call,
    nth_error log 0 = Some call /\
    (call_jump call = true <-> (0.5 < call_output call)%Q).
Proof.
  intros a target fit log.
  assert (H : think [target] 0 [a] fit =
              Some ([fst (decide target a)], fit_add fit 1 0.1, log))
    by reflexivity.
  split; [exact H|]. split; [reflexivity|].
  destruct (jump_iff_above_threshold _ _ _ _ _ _ _ 0%nat a H eq_refl)
    as (call & Hl & _ & _ & _ & Hj & _).
  exists call. split; assumption.
Defined.

(** C3 as stated fails at the threshold itself: a network that answers
    exactly 0.5 does not make its bird jump (the velocity stays 0). *)
Lemma no_jump_at_threshold :
  let a := sample_agent 1 (fun _ => 0.5%Q)
                        (Bird.init sample_assets 230 350) in
  let target := sample_pipe 600 100 false in
  exists c' fit' call,
    think [target] 0 [a] (fun _ => 0%float) = Some (c', fit', [call]) /\
    (0.5 <= call_output call)%Q /\
    call_jump call = false /\
    map (fun a' => Bird.vel (bird a')) c' = [0%Q].
Proof.
  intros a target. eexists _, _, _.
  split; [reflexivity|].
  split; [vm_compute; discriminate|]. split; reflexivity.
Qed.

(** C1, as the code has it.  In a tick every agent's observation is built
    from one and the same pipe: the first of the list, unless a second one
    exists and the first bird's [x] is strictly greater than the first
    pipe's [x] plus the pipe width, in which case it is the second.  The
    [passed] flag of the first pipe is not consulted. *)
Theorem target_selection
    (A : Assets) (c : list Agent) (ps : list Pipe.t) (fit : Store)
    (c' : list Agent) (fit' : Store) (log : list Call) :
  c <> [] ->
  think ps (pipe_ind A c ps) c fit = Some (c', fit', log) ->
  exists target,
    map call_input log =
      map (fun a => observation (Bird.move (bird a)) target) c /\
    (forall p0, ps = [p0] -> target = p0) /\
    (forall b0 c0 p0 p1 ps',
        c = b0 :: c0 -> ps = p0 :: p1 :: ps' ->
        (Pipe.x p0 + get_width (PIPE_IMG A) < Bird.x (bird b0) ->
         target = p1) /\
        (Bird.x (bird b0) <= Pipe.x p0 + get_width (PIPE_IMG A) ->
         target = p0)).
Proof.
  intros Hc H.
  destruct (think_inv _ _ _ _ _ _ _ H Hc) as (target & Ht & _ & _ & ->).
  exists target. split; [|split].
  - rewrite map_map. reflexivity.
  - intros p0 ->. destruct c as [|b0 c0]; [congruence|].
    cbn in Ht. congruence.
  - intros b0 c0 p0 p1 ps' -> ->. cbn [pipe_ind] in Ht.
    change (get_width (Pipe.PIPE_TOP A)) with (get_width (PIPE_IMG A)) in Ht.
    destruct (Pipe.x p0 + get_width (PIPE_IMG A) <? Bird.x (bird b0)) eqn:E;
      cbn in Ht; injection Ht as <-.
    + apply Z.ltb_lt in E. split; [reflexivity|lia].
    + apply Z.ltb_ge in E. split; [lia|reflexivity].
Qed.

Lemma target_selection_witness :
  let a := sample_agent 1 never_jumps (Bird.init sample_assets 230 350) in
  let p0 := sample_pipe 120 100 true in
  let p1 := sample_pipe 495 300 false in
  let fit := fun _ : nat => 0%float in
  [a] <> [] /\
  think [p0; p1] (pipe_ind sample_assets [a] [p0; p1]) [a] fit =
    Some ([fst (decide p1 a)], fit_add fit 1 0.1, [snd (decide p1 a)]) /\
  map call_input [snd (decide p1 a)] =
    [observation (Bird.move (bird a)) p1].
Proof.
  intros a p0 p1 fit.
  assert (Hc : [a] <> []) by discriminate.
  assert (H : think [p0; p1] (pipe_ind sample_assets [a] [p0; p1]) [a] fit =
              Some ([fst (decide p1 a)], fit_add fit 1 0.1,
                    [snd (decide p1 a)])) by reflexivity.
  split; [exact Hc|]. split; [exact H|].
  destruct (target_selection sample_assets _ _ _ _ _ _ Hc H)
    as (target & Hlog & _ & Hrule).
  destruct (Hrule a [] p0 p1 [] eq_refl eq_refl) as [Hnext _].
  rewrite Hlog, (Hnext ltac:(cbn; lia)). reflexivity.
Defined.

(** C1 as stated fails in the state a tick leaves when a pipe has just been
    passed: the first pipe, at 225, is flagged and a second one stands at
    600, but the bird at 230 is still inside the first pipe, and the
    network is shown the first pipe, not the second. *)
Lemma target_is_not_the_flag_rule :
  let a := sample_agent 1 never_jumps (Bird.init sample_assets 230 350) in
  let p0 := sample_pipe 225 100 true in
  let p1 := sample_pipe 600 300 false in
  spec_target [p0; p1] = Some p1 /\
  exists c' fit' call,
    think [p0; p1] (pipe_ind sample_assets [a] [p0; p1]) [a] (fun _ => 0%float)
      = Some (c', fit', [call]) /\
    call_input call = observation (Bird.move (bird a)) p0 /\
    call_input call <> observation (Bird.move (bird a)) p1.
Proof.
  intros a p0 p1. split; [reflexivity|].
  eexists _, _, _. split; [reflexivity|]. split; [reflexivity|].
  vm_compute. discriminate.
Qed.

(** ** Counting rows *)

#[local] Hint Constructors subseq : core.

Lemma subseq_refl {A} (l : list A) : subseq l l.
Proof. induction l; auto. Qed.

Lemma subseq_trans {A} (l1 l2 l3 : list A) :
  subseq l1 l2 -> subseq l2 l3 -> subseq l1 l3.
Proof.
  intros H12 H23. revert l1 H12.
  induction H23 as [|a l2 l3 H IH|a l2 l3 H IH]; intros l1 H12; auto.
  inversion H12; subst; auto.
Qed.

Lemma subseq_In {A} (l' l : list A) (a : A) :
  subseq l' l -> In a l' -> In a l.
Proof.
  induction 1 as [|b l' l H IH|b l' l H IH]; cbn; intuition.
Qed.

Lemma subseq_length {A} (l' l : list A) :
  subseq l' l -> (length l' <= length l)%nat.
Proof. induction 1; cbn; lia. Qed.

Lemma subseq_map {A B} (f : A -> B) (l' l : list A) :
  subseq l' l -> subseq (map f l') (map f l).
Proof. induction 1; cbn; auto. Qed.

Lemma subseq_NoDup {A} (l' l : list A) :
  subseq l' l -> NoDup l -> NoDup l'.
Proof.
  induction 1 as [|b l' l H IH|b l' l H IH]; intro N; auto.
  - inversion N; auto.
  - inversion N as [|? ? Hb N']; subst. constructor; auto.
    intro Hin. apply Hb. eapply subseq_In; eauto.
Qed.

Lemma alive_In g c : alive g c = true <-> In g (gids c).
Proof.
  unfold alive. rewrite existsb_exists. split.
  - intros (k & Hk & E). apply Nat.eqb_eq in E. now subst.
  - intro H. exists g. split; [assumption|apply Nat.eqb_refl].
Qed.

Lemma occ_not_alive g c : alive g c = false -> occ g c = O.
Proof.
  unfold alive, gids. induction c as [|a r IH]; cbn; [reflexivity|].
  destruct (Nat.eqb g (ge a)); cbn; [discriminate|].
  intro H. exact (IH H).
Qed.

(** When no genome has two rows, [occ] is the indicator of [alive]. *)
Lemma occ_alive g c :
  NoDup (gids c) -> occ g c = if alive g c then 1%nat else O.
Proof.
  intro N. destruct (alive g c) eqn:E; [|now apply occ_not_alive].
  revert N E. unfold alive, gids.
  induction c as [|a r IH]; cbn; [discriminate|].
  intros N E. inversion N as [|? ? Ha N']; subst.
  destruct (Nat.eqb g (ge a)) eqn:Eg; cbn in E.
  - apply Nat.eqb_eq in Eg. subst g.
    rewrite occ_not_alive; [reflexivity|].
    destruct (alive (ge a) r) eqn:Ea; [|reflexivity].
    apply alive_In in Ea. contradiction.
  - exact (IH N' E).
Qed.

Lemma occ_subseq g (c' c : list Agent) :
  subseq c' c -> (occ g c' <= occ g c)%nat.
Proof. induction 1; cbn [occ]; lia. Qed.

Lemma alive_subseq g c' c :
  subseq c' c -> alive g c' = true -> alive g c = true.
Proof.
  intros H. rewrite !alive_In. apply subseq_In, subseq_map, H.
Qed.

Lemma fit_add_at (fit : Store) (h : nat) (d : float) (g : nat) :
  fit_add fit h d g = Nat.iter (if Nat.eqb g h then 1 else 0)
                               (fun f => (f + d)%float) (fit g).
Proof. unfold fit_add. now destruct (Nat.eqb g h). Qed.

Lemma fit_sub_at (fit : Store) (h : nat) (g : nat) :
  fit_sub fit h 1 g = Nat.iter (if Nat.eqb g h then 1 else 0) penalty (fit g).
Proof. unfold fit_sub. now destruct (Nat.eqb g h). Qed.

(** ** What a removing scan does to cohort and store *)




Section SweepFacts.

Context {L : Type}.
Variable body : L -> Agent -> bool * L.

Lemma sweep_cons st a r fit :
  sweep body st (a :: r) fit =
  let '(dead, st') := body st a in
  if dead then
    match r with
    | [] => (st', [], fit_sub fit (ge a) 1)
    | b :: r' =>
        let '(st'', c', fit') := sweep body st' r' (fit_sub fit (ge a) 1) in
        (st'', b :: c', fit')
    end
  else
    let '(st'', c', fit') := sweep body st' r fit in (st'', a :: c', fit').
Proof. reflexivity. Qed.

(** The rows that stay are rows that were there, in their order. *)
Lemma sweep_subseq : forall c st fit,
  subseq (snd (fst (sweep body st c fit))) c.
Proof.
  intro c. induction c as [| a | a b r IHr IHbr] using list_pair_ind;
    intros st fit.
  - cbn. auto.
  - cbn [sweep]. destruct (body st a) as [[] st']; cbn; auto.
  - rewrite sweep_cons. destruct (body st a) as [[] st'].
    + specialize (IHr st' (fit_sub fit (ge a) 1)).
      destruct (sweep body st' r _) as [[st'' c'] fit']. cbn in *. auto.
    + specialize (IHbr st' fit).
      destruct (sweep body st' (b :: r) fit) as [[st'' c'] fit'].
      cbn in *. auto.
Qed.

(** Every penalty goes with a removed row: the store books one [-= 1] for
    each row of the genome that left. *)
Lemma sweep_account (g : nat) : forall c st fit,
  let '(_, c', fit') := sweep body st c fit in
  fit' g = Nat.iter (occ g c - occ g c') penalty (fit g).
Proof.
  intro c. induction c as [| a | a b r IHr IHbr] using list_pair_ind;
    intros st fit.
  - reflexivity.
  - cbn [sweep]. destruct (body st a) as [[] st']; cbn [occ].
    + rewrite fit_sub_at. f_equal. lia.
    + now rewrite Nat.sub_diag.
  - rewrite sweep_cons. destruct (body st a) as [[] st'].
    + specialize (IHr st' (fit_sub fit (ge a) 1)).
      pose proof (sweep_subseq r st' (fit_sub fit (ge a) 1)) as Hs.
      destruct (sweep body st' r _) as [[st'' c'] fit'].
      cbv beta iota in IHr |- *. cbn [fst snd] in Hs.
      apply (occ_subseq g) in Hs. cbn [occ].
      rewrite IHr, fit_sub_at, <- Nat.iter_add. f_equal. lia.
    + specialize (IHbr st' fit).
      pose proof (sweep_subseq (b :: r) st' fit) as Hs.
      destruct (sweep body st' (b :: r) fit) as [[st'' c'] fit'].
      cbv beta iota in IHbr |- *. cbn [fst snd] in Hs.
      apply (occ_subseq g) in Hs. cbn [occ] in IHbr, Hs |- *.
      rewrite IHbr. f_equal. lia.
Qed.

(** The death test may read the loop variables, but what the body does to
    them does not change its answers. *)
Hypothesis body_stable : forall st a a',
  fst (body (snd (body st a)) a') = fst (body st a').

(** A row for which the test fails is never removed. *)
Lemma sweep_keeps (a0 : Agent) : forall c st fit,
  fst (body st a0) = false -> In a0 c ->
  In a0 (snd (fst (sweep body st c fit))).
Proof.
  intro c. induction c as [| a | a b r IHr IHbr] using list_pair_ind;
    intros st fit Hd Hin.
  - destruct Hin.
  - destruct Hin as [->|[]]. cbn [sweep].
    destruct (body st a0) as [[] st']; cbn in *; [discriminate|auto].
  - rewrite sweep_cons. pose proof (body_stable st a a0) as Hs.
    destruct (body st a) as [dead st'] eqn:Eb. cbn [snd fst] in Hs.
    rewrite Hd in Hs. destruct dead.
    + assert (Ha : a <> a0).
      { intros ->. rewrite Eb in Hd. discriminate. }
      specialize (IHr st' (fit_sub fit (ge a) 1) Hs).
      destruct (sweep body st' r _) as [[st'' c'] fit']. cbn in *.
      destruct Hin as [?|[?|?]]; [contradiction|auto|auto].
    + specialize (IHbr st' fit Hs).
      destruct (sweep body st' (b :: r) fit) as [[st'' c'] fit']. cbn in *.
      destruct Hin as [?|Hin]; auto.
Qed.


(** Rows in front that pass the test are stepped through one by one; the
    scan then reaches the row behind them. *)
Lemma sweep_prefix : forall pre st rest fit,
  Forall (fun a => fst (body st a) = false) pre ->
  exists st',
    (forall a, fst (body st' a) = fst (body st a)) /\
    sweep body st (pre ++ rest) fit =
    let '(st'', c', fit') := sweep body st' rest fit in
    (st'', pre ++ c', fit').
Proof.
  induction pre as [|a pre IH]; intros st rest fit Hpre.
  - exists st. split; [reflexivity|].
    cbn. now destruct (sweep body st rest fit) as [[? ?] ?].
  - inversion Hpre as [|? ? Ha Hpre']; subst.
    cbn [app]. rewrite sweep_cons. pose proof (body_stable st a) as Hs.
    destruct (body st a) as [dead st1]. cbn [fst snd] in *. subst dead.
    destruct (IH st1 rest fit) as (st' & Hst' & E).
    { eapply Forall_impl; [|exact Hpre']. intros x Hx. now rewrite Hs. }
    exists st'. split; [intro x; now rewrite Hst', Hs|].
    rewrite E. now destruct (sweep body st' rest fit) as [[? ?] ?].
Qed.

End SweepFacts.

(** The indices a scan reaches. *)
Lemma reached_ext dies dies' :
  (forall a, dies a = dies' a) ->
  forall c i, reached dies c i = reached dies' c i.
Proof.
  intros H c. induction c as [| a | a b r IHr IHbr] using list_pair_ind;
    intros [|i]; try reflexivity.
  - cbn. rewrite <- H. destruct (dies a); now destruct i.
  - cbn [reached]. rewrite <- H. destruct (dies a).
    + destruct i as [|i]; [reflexivity|apply IHr].
    + apply IHbr.
Qed.

(** Index 0 is reached, and an index behind another one is reached unless
    the row in front of it was reached and died. *)
Lemma reached_succ dies : forall c i a b,
  nth_error c i = Some a -> nth_error c (S i) = Some b ->
  reached dies c (S i) = negb (reached dies c i && dies a).
Proof.
  intro c. induction c as [| x | x y r IHr IHyr] using list_pair_ind;
    intros i a b Hi Hb.
  - destruct i; discriminate.
  - destruct i as [|i]; [discriminate|destruct i; discriminate].
  - destruct i as [|i].
    + injection Hi as ->. cbn [reached andb]. now destruct (dies a).
    + cbn [nth_error] in Hi, Hb.
      change (reached dies (x :: y :: r) (S (S i)))
        with (if dies x then reached dies r i
              else reached dies (y :: r) (S i)).
      cbn [reached]. destruct (dies x).
      * destruct i as [|i].
        -- cbn [nth_error] in Hb. destruct r; [discriminate|reflexivity].
        -- cbn [nth_error] in Hi, Hb. exact (IHr i a b Hi Hb).
      * exact (IHyr i a b Hi Hb).
Qed.

Section SweepReached.

Context {L : Type}.
Variable body : L -> Agent -> bool * L.
Hypothesis body_stable : forall st a a',
  fst (body (snd (body st a)) a') = fst (body st a').

Let dies (st : L) (a : Agent) : bool := fst (body st a).

Lemma reached_step st a c i :
  reached (dies (snd (body st a))) c i = reached (dies st) c i.
Proof. apply reached_ext. intro x. apply body_stable. Qed.

Lemma sweep_reached_removed : forall c i a st fit,
  NoDup (gids c) ->
  nth_error c i = Some a ->
  reached (dies st) c i = true ->
  dies st a = true ->
  ~ In (ge a) (gids (snd (fst (sweep body st c fit)))).
Proof.
  intro c. induction c as [| x | x y r IHr IHyr] using list_pair_ind;
    intros i a st fit N Hi Hr Ha.
  - destruct i; discriminate.
  - destruct i as [|i]; [|destruct i; discriminate].
    injection Hi as ->. rewrite sweep_cons. unfold dies in Ha.
    destruct (body st a) as [d st']. cbn [fst] in Ha. subst d. cbn. auto.
  - rewrite sweep_cons. inversion N as [|? ? Nx N']; subst.
    destruct i as [|i].
    + injection Hi as ->. unfold dies in Ha.
      destruct (body st a) as [d st']. cbn [fst] in Ha. subst d.
      pose proof (sweep_subseq body r st' (fit_sub fit (ge a) 1)) as Hsub.
      destruct (sweep body st' r _) as [[st'' c''] fit'']. cbn [fst snd] in *.
      intro Hin. apply Nx.
      eapply (subseq_In (gids (y :: c'')) (gids (y :: r))); [|exact Hin].
      apply subseq_map. auto.
    + cbn [nth_error] in Hi. cbn [reached] in Hr.
      pose proof (body_stable st x a) as Hs.
      pose proof (reached_step st x) as Hrs.
      unfold dies in Hr, Hrs, Ha.
      destruct (body st x) as [d st']. cbn [fst snd] in *.
      destruct d.
      * destruct i as [|i]; [discriminate|]. cbn [nth_error] in Hi.
        inversion N' as [|? ? Ny N'']; subst.
        assert (IH := IHr i a st' (fit_sub fit (ge x) 1) N'' Hi).
        unfold dies in IH. rewrite Hrs, Hs in IH. specialize (IH Hr Ha).
        destruct (sweep body st' r _) as [[st'' c''] fit''].
        cbn [fst snd] in *. intros [E|Hin]; [|auto].
        apply Ny. rewrite E. apply in_map. eapply nth_error_In, Hi.
      * assert (IH := IHyr i a st' fit N' Hi).
        unfold dies in IH. rewrite Hrs, Hs in IH. specialize (IH Hr Ha).
        destruct (sweep body st' (y :: r) fit) as [[st'' c''] fit''].
        cbn [fst snd] in *. intros [E|Hin]; [|auto].
        apply Nx. rewrite E. apply (in_map ge (y :: r)).
        eapply nth_error_In, Hi.
Qed.

Lemma reached_cons_cons d x y r i :
  reached d (x :: y :: r) (S (S i)) =
  if d x then reached d r i else reached d (y :: r) (S i).
Proof. reflexivity. Qed.

Lemma sweep_next_stays : forall c i a b st fit,
  nth_error c i = Some a ->
  nth_error c (S i) = Some b ->
  reached (dies st) c i = true ->
  dies st a = true ->
  reached (dies st) c (S i) = false /\
  In b (snd (fst (sweep body st c fit))).
Proof.
  intro c. induction c as [| x | x y r IHr IHyr] using list_pair_ind;
    intros i a b st fit Hi Hb Hr Ha.
  - destruct i; discriminate.
  - destruct i as [|i]; [discriminate|destruct i; discriminate].
  - rewrite sweep_cons. destruct i as [|i].
    + injection Hi as ->. injection Hb as ->.
      split; [cbn [reached]; now rewrite Ha|].
      unfold dies in Ha.
      destruct (body st a) as [d st']. cbn [fst] in Ha. subst d.
      destruct (sweep body st' r _) as [[st'' c''] fit'']. now left.
    + cbn [nth_error] in Hi, Hb. rewrite reached_cons_cons.
      cbn [reached] in Hr.
      pose proof (body_stable st x a) as Hs.
      pose proof (reached_step st x) as Hrs.
      unfold dies in *.
      destruct (body st x) as [d st']. cbn [fst snd] in *.
      destruct d.
      * destruct i as [|i]; [discriminate|]. cbn [nth_error] in Hi, Hb.
        destruct (IHr i a b st' (fit_sub fit (ge x) 1) Hi Hb) as [H1 H2].
        { now rewrite Hrs. } { now rewrite Hs. }
        rewrite Hrs in H1. split; [exact H1|].
        destruct (sweep body st' r _) as [[st'' c''] fit''].
        cbn [fst snd] in *. now right.
      * destruct (IHyr i a b st' fit Hi Hb) as [H1 H2].
        { now rewrite Hrs. } { now rewrite Hs. }
        rewrite Hrs in H1. split; [exact H1|].
        destruct (sweep body st' (y :: r) fit) as [[st'' c''] fit''].
        cbn [fst snd] in *. now right.
Qed.

End SweepReached.

Lemma reached_clean_prefix dies : forall pre a rest,
  Forall (fun x => dies x = false) pre ->
  reached dies (pre ++ a :: rest) (length pre) = true.
Proof.
  induction pre as [|x pre IH]; intros a rest H; [reflexivity|].
  inversion H as [|? ? Hx H']; subst. cbn [app length reached].
  rewrite Hx. now apply IH.
Qed.

(** With one row per genome, the store of a scan changes exactly for the
    genomes whose row left, by one [-= 1]. *)
Lemma sweep_account_alive {L} (body : L -> Agent -> bool * L) g c st fit :
  NoDup (gids c) ->
  let '(_, c', fit') := sweep body st c fit in
  fit' g = if alive g c && negb (alive g c') then penalty (fit g) else fit g.
Proof.
  intro N.
  pose proof (sweep_account body g c st fit) as Ha.
  pose proof (sweep_subseq body c st fit) as Hs.
  destruct (sweep body st c fit) as [[st' c'] fit']. cbn [fst snd] in Hs.
  rewrite Ha, (occ_alive g c N).
  rewrite (occ_alive g c')
    by (eapply subseq_NoDup; [apply subseq_map, Hs|exact N]).
  now destruct (alive g c), (alive g c').
Qed.

Lemma alive_false_iff g c : alive g c = false <-> ~ In g (gids c).
Proof.
  rewrite <- alive_In. destruct (alive g c); split; congruence.
Qed.

(** ** The bounds scan *)

Lemma bounds_body_stable st a a' :
  fst (bounds_body (snd (bounds_body st a)) a') = fst (bounds_body st a').
Proof. reflexivity. Qed.

Lemma bounds_scan_sweep c fit :
  bounds_scan c fit =
  (snd (fst (sweep bounds_body tt c fit)), snd (sweep bounds_body tt c fit)).
Proof.
  unfold bounds_scan. rewrite enumerate_pop_sweep.
  now destruct (sweep bounds_body tt c fit) as [[? ?] ?].
Qed.

Lemma out_of_bounds_iff (b : Bird.t) :
  out_of_bounds b = true <->
  (inject_Z FLOOR <= Bird.y b + inject_Z (get_height (Bird.img b)))%Q \/
  (Bird.y b < 0)%Q.
Proof.
  unfold out_of_bounds. rewrite orb_true_iff, Qle_bool_iff, Qltb_lt.
  reflexivity.
Qed.

Lemma alive_nth g c i a :
  nth_error c i = Some a -> ge a = g -> alive g c = true.
Proof.
  intros H <-. apply alive_In, in_map. eapply nth_error_In, H.
Qed.

(** C9, as the code has it.  The test of line 430 is true exactly when the
    bird's vertical position plus the height of its image reaches or
    exceeds the floor line, or the position is negative.  It is a function
    of the bird alone and changes nothing: the rows the scan leaves are
    rows of the cohort as they were.  For an agent the scan reaches, a true
    result removes the agent and takes exactly one point from its fitness;
    an agent for which the test is false stays, with its fitness
    untouched. *)
Theorem out_of_bounds_death
    (c : list Agent) (i : nat) (a : Agent) (fit : Store) :
  NoDup (gids c) ->
  nth_error c i = Some a ->
  (out_of_bounds (bird a) = true <->
   (inject_Z FLOOR <=
      Bird.y (bird a) + inject_Z (get_height (Bird.img (bird a))))%Q \/
   (Bird.y (bird a) < 0)%Q) /\
  let '(c', fit') := bounds_scan c fit in
  subseq c' c /\
  (reached (fun x => out_of_bounds (bird x)) c i = true ->
   out_of_bounds (bird a) = true ->
   ~ In (ge a) (gids c') /\ fit' (ge a) = (fit (ge a) - 1)%float) /\
  (out_of_bounds (bird a) = false ->
   In a c' /\ fit' (ge a) = fit (ge a)).
Proof.
  intros N Hi. split; [apply out_of_bounds_iff|].
  rewrite bounds_scan_sweep.
  pose proof (sweep_account_alive bounds_body (ge a) c tt fit N) as Hacc.
  pose proof (sweep_subseq bounds_body c tt fit) as Hsub.
  rewrite (alive_nth _ _ _ _ Hi eq_refl) in Hacc.
  split; [exact Hsub|]. split.
  - intros Hr Ha.
    pose proof (sweep_reached_removed bounds_body bounds_body_stable
                  c i a tt fit N Hi Hr Ha) as Hout.
    split; [exact Hout|]. apply alive_false_iff in Hout.
    destruct (sweep bounds_body tt c fit) as [[st' c'] fit'].
    cbn [fst snd] in *. rewrite Hout in Hacc. exact Hacc.
  - intro Ha.
    assert (Hin : In a (snd (fst (sweep bounds_body tt c fit)))).
    { apply sweep_keeps; [exact bounds_body_stable|exact Ha|].
      eapply nth_error_In, Hi. }
    split; [exact Hin|].
    assert (Hal : alive (ge a) (snd (fst (sweep bounds_body tt c fit)))
                  = true).
    { apply alive_In. now apply in_map. }
    destruct (sweep bounds_body tt c fit) as [[st' c'] fit'].
    cbn [fst snd] in *. rewrite Hal in Hacc. exact Hacc.
Qed.

Lemma out_of_bounds_death_witness :
  let calm := sample_agent 1 never_jumps (Bird.init sample_assets 230 350) in
  let gone := sample_agent 2 always_jumps high_bird in
  let fit := fun _ : nat => 0.3%float in
  NoDup (gids [calm; gone]) /\
  nth_error [calm; gone] 1 = Some gone /\
  reached (fun x => out_of_bounds (bird x)) [calm; gone] 1 = true /\
  out_of_bounds (bird gone) = true /\
  let '(c', fit') := bounds_scan [calm; gone] fit in
  ~ In 2%nat (gids c') /\ fit' 2%nat = (fit 2%nat - 1)%float.
Proof.
  intros calm gone fit.
  assert (N : NoDup (gids [calm; gone])).
  { cbn. repeat constructor; cbn; intuition discriminate. }
  assert (Hi : nth_error [calm; gone] 1 = Some gone) by reflexivity.
  assert (R : reached (fun x => out_of_bounds (bird x)) [calm; gone] 1
              = true) by reflexivity.
  assert (O : out_of_bounds (bird gone) = true) by reflexivity.
  split; [exact N|]. split; [exact Hi|]. split; [exact R|].
  split; [exact O|].
  pose proof (proj2 (out_of_bounds_death [calm; gone] 1 gone fit N Hi)) as H.
  exact (proj1 (proj2 H) R O).
Defined.

(** C9 as stated fails for a bird that touches the floor line without
    exceeding it: 682 + 48 = 730 is not beyond the floor at 730 and the
    position is not negative, yet the test is true and the bird dies. *)
Lemma out_of_bounds_on_the_line :
  let a := sample_agent 1 never_jumps floor_bird in
  ~ ((inject_Z FLOOR <
        Bird.y floor_bird + inject_Z (get_height (Bird.img floor_bird)))%Q \/
     (Bird.y floor_bird < 0)%Q) /\
  out_of_bounds floor_bird = true /\
  gids (fst (bounds_scan [a] (fun _ => 0%float))) = [].
Proof.
  intro a. split; [|split; reflexivity].
  intros [H|H]; vm_compute in H; discriminate H.
Qed.

(** ** Removal steps over the next row *)

Lemma sweep_skip_account {L} (body : L -> Agent -> bool * L)
    (body_stable : forall st a a',
        fst (body (snd (body st a)) a') = fst (body st a'))
    c i a b st fit :
  NoDup (gids c) ->
  nth_error c i = Some a ->
  nth_error c (S i) = Some b ->
  reached (fun x => fst (body st x)) c i = true ->
  fst (body st a) = true ->
  let '(_, c', fit') := sweep body st c fit in
  reached (fun x => fst (body st x)) c (S i) = false /\
  ~ In (ge a) (gids c') /\ In b c' /\
  fit' (ge a) = (fit (ge a) - 1)%float /\
  fit' (ge b) = fit (ge b).
Proof.
  intros N Hi Hb Hr Ha.
  destruct (sweep_next_stays body body_stable c i a b st fit Hi Hb Hr Ha)
    as [Hnext Hstay].
  pose proof (sweep_reached_removed body body_stable c i a st fit
                N Hi Hr Ha) as Hout.
  pose proof (sweep_account_alive body (ge a) c st fit N) as Haa.
  pose proof (sweep_account_alive body (ge b) c st fit N) as Hab.
  rewrite (alive_nth _ _ _ _ Hi eq_refl) in Haa.
  rewrite (alive_nth _ _ _ _ Hb eq_refl) in Hab.
  destruct (sweep body st c fit) as [[st' c'] fit']. cbn [fst snd] in *.
  split; [exact Hnext|]. split; [exact Hout|]. split; [exact Hstay|].
  apply alive_false_iff in Hout. rewrite Hout in Haa.
  assert (Hal : alive (ge b) c' = true) by (apply alive_In; now apply in_map).
  rewrite Hal in Hab. split; [exact Haa|exact Hab].
Qed.

Lemma collide_body_stable A st a a' :
  fst (collide_body A (snd (collide_body A st a)) a') =
  fst (collide_body A st a').
Proof.
  destruct st as [pipe add]. unfold collide_body. cbn [snd].
  destruct (negb (Pipe.passed pipe) && (Pipe.x pipe <? Bird.x (bird a)));
    reflexivity.
Qed.

Lemma pipe_step_sweep A pipe add c fit :
  pipe_step A pipe add c fit =
  let '(pipe', add', c', fit') :=
    sweep (collide_body A) (Pipe.move pipe, add) c fit in
  (pipe', add', c', fit').
Proof. unfold pipe_step. now rewrite enumerate_pop_sweep. Qed.

(** C10, as the code has it.  In both scans, when the scan reaches an agent
    that satisfies the death condition, that agent is removed with its
    penalty, and the agent right behind it slides into the freed index and
    is not reached in this pass: it stays in the cohort, unpenalised,
    whether or not it satisfies the condition too. *)
Theorem removal_skips_next
    (A : Assets) (pipe : Pipe.t) (add_pipe : bool)
    (c : list Agent) (i : nat) (a b : Agent) (fit : Store) :
  NoDup (gids c) ->
  nth_error c i = Some a ->
  nth_error c (S i) = Some b ->
  (let dies := fun x => out_of_bounds (bird x) in
   reached dies c i = true -> dies a = true ->
   let '(c', fit') := bounds_scan c fit in
   reached dies c (S i) = false /\
   ~ In (ge a) (gids c') /\ In b c' /\
   fit' (ge a) = (fit (ge a) - 1)%float /\
   fit' (ge b) = fit (ge b)) /\
  (let dies := fun x => Pipe.collide A (Pipe.move pipe) (bird x) in
   reached dies c i = true -> dies a = true ->
   let '(_, _, c', fit') := pipe_step A pipe add_pipe c fit in
   reached dies c (S i) = false /\
   ~ In (ge a) (gids c') /\ In b c' /\
   fit' (ge a) = (fit (ge a) - 1)%float /\
   fit' (ge b) = fit (ge b)).
Proof.
  intros N Hi Hb. split; intros dies Hr Ha.
  - rewrite bounds_scan_sweep.
    pose proof (sweep_skip_account bounds_body bounds_body_stable
                  c i a b tt fit N Hi Hb Hr Ha) as H.
    destruct (sweep bounds_body tt c fit) as [[st' c'] fit']. exact H.
  - rewrite pipe_step_sweep.
    pose proof (sweep_skip_account (collide_body A) (collide_body_stable A)
                  c i a b (Pipe.move pipe, add_pipe) fit N Hi Hb Hr Ha) as H.
    destruct (sweep (collide_body A) _ c fit) as [[[pipe' add'] c'] fit'].
    exact H.
Qed.

Lemma removal_skips_next_witness :
  let a1 := sample_agent 1 always_jumps high_bird in
  let a2 := sample_agent 2 always_jumps high_bird in
  let dies := fun x => out_of_bounds (bird x) in
  let fit := fun _ : nat => 3.2%float in
  NoDup (gids [a1; a2]) /\
  nth_error [a1; a2] 0 = Some a1 /\ nth_error [a1; a2] 1 = Some a2 /\
  reached dies [a1; a2] 0 = true /\
  dies a1 = true /\ dies a2 = true /\
  let '(c', fit') := bounds_scan [a1; a2] fit in
  reached dies [a1; a2] 1 = false /\
  ~ In 1%nat (gids c') /\ In a2 c' /\
  fit' 1%nat = (fit 1%nat - 1)%float /\ fit' 2%nat = fit 2%nat.
Proof.
  intros a1 a2 dies fit.
  assert (N : NoDup (gids [a1; a2])).
  { cbn. repeat constructor; cbn; intuition discriminate. }
  split; [exact N|]. do 5 (split; [reflexivity|]).
  exact (proj1 (removal_skips_next sample_assets (sample_pipe 600 100 false)
                  false [a1; a2] 0 a1 a2 fit N eq_refl eq_refl)
               eq_refl eq_refl).
Defined.

(** C10 as stated fails for three neighbours that are all out of bounds:
    the scan removes the first and the third, and of the pair formed by
    the second and the third it is the first that stays. *)
Lemma three_in_a_row :
  let c := [sample_agent 1 always_jumps high_bird;
            sample_agent 2 always_jumps high_bird;
            sample_agent 3 always_jumps high_bird] in
  gids (fst (bounds_scan c (fun _ => 0%float))) = [2%nat] /\
  ~ spec_pairwise_skip c (fun _ => 0%float).
Proof.
  intro c. split; [reflexivity|].
  intro H.
  destruct (H 1%nat _ _ eq_refl eq_refl eq_refl eq_refl) as [H2 _].
  apply H2. now left.
Qed.

(** ** The collision scan and the pass flag *)

Lemma visited_In dies c a : In a (visited dies c) -> In a c.
Proof.
  revert a. induction c as [| a0 | a0 b r IHr IHbr] using list_pair_ind;
    intros a H.
  - destruct H.
  - cbn in H. destruct (dies a0); cbn in H; destruct H as [H|[]]; now left.
  - cbn [visited] in H. destruct H as [H|H]; [now left|].
    destruct (dies a0).
    + right. right. apply IHr, H.
    + right. apply IHbr, H.
Qed.

Lemma visited_head dies a r : In a (visited dies (a :: r)).
Proof. cbn [visited]. now left. Qed.

(** The loop variables after the scan of one pipe: the flag is set, and
    [add_pipe] with it, exactly when the pipe was not flagged and a row the
    scan yields has it behind. *)
Lemma collide_sweep_state A : forall c p add fit,
  fst (fst (sweep (collide_body A) (p, add) c fit)) =
  if negb (Pipe.passed p) && overtaken A p c
  then (Pipe.set_passed p, true) else (p, add).
Proof.
  unfold overtaken.
  intro c. induction c as [| a | a b r IHr IHbr] using list_pair_ind;
    intros p add fit.
  - cbn. now rewrite andb_false_r.
  - rewrite sweep_cons. unfold collide_body at 1. fold (hits A p a).
    fold (behind p a). cbn [visited existsb].
    destruct (hits A p a); cbn [sweep fst existsb]; rewrite orb_false_r;
      reflexivity.
  - rewrite sweep_cons. unfold collide_body at 1. fold (hits A p a).
    fold (behind p a). cbn [visited existsb].
    destruct (hits A p a).
    + destruct (negb (Pipe.passed p) && behind p a) eqn:E.
      * specialize (IHr (Pipe.set_passed p) true (fit_sub fit (ge a) 1)).
        destruct (sweep (collide_body A) _ r _) as [[st' c'] fit'].
        cbn [fst] in *. rewrite IHr. cbn [Pipe.set_passed Pipe.passed negb andb].
        apply andb_true_iff in E as [-> ->]. reflexivity.
      * specialize (IHr p add (fit_sub fit (ge a) 1)).
        destruct (sweep (collide_body A) _ r _) as [[st' c'] fit'].
        cbn [fst] in *. rewrite IHr.
        destruct (Pipe.passed p), (behind p a); cbn in *;
          try discriminate; reflexivity.
    + destruct (negb (Pipe.passed p) && behind p a) eqn:E.
      * specialize (IHbr (Pipe.set_passed p) true fit).
        destruct (sweep (collide_body A) _ (b :: r) _) as [[st' c'] fit'].
        cbn [fst] in *. rewrite IHbr.
        cbn [Pipe.set_passed Pipe.passed negb andb].
        apply andb_true_iff in E as [-> ->]. reflexivity.
      * specialize (IHbr p add fit).
        destruct (sweep (collide_body A) _ (b :: r) _) as [[st' c'] fit'].
        cbn [fst] in *. rewrite IHbr.
        destruct (Pipe.passed p), (behind p a); cbn in *;
          try discriminate; reflexivity.
Qed.

Lemma flips_scanned A p c :
  flips p (scanned A p c) =
  negb (Pipe.passed p) && overtaken A (Pipe.move p) c.
Proof.
  unfold flips, scanned.
  destruct (Pipe.passed p) eqn:E; [reflexivity|]. cbn [negb andb].
  destruct (overtaken A (Pipe.move p) c); [reflexivity|].
  cbn [Pipe.move Pipe.passed]. exact E.
Qed.

Lemma pipe_step_spec A pipe add c fit :
  exists c' fit',
    pipe_step A pipe add c fit =
      (scanned A pipe c, add || flips pipe (scanned A pipe c), c', fit') /\
    subseq c' c /\
    (forall g, fit' g = Nat.iter (occ g c - occ g c') penalty (fit g)).
Proof.
  rewrite pipe_step_sweep.
  pose proof (collide_sweep_state A c (Pipe.move pipe) add fit) as Hst.
  pose proof (sweep_subseq (collide_body A) c (Pipe.move pipe, add) fit)
    as Hsub.
  pose proof (fun g => sweep_account (collide_body A) g c
                         (Pipe.move pipe, add) fit) as Hacc.
  destruct (sweep (collide_body A) (Pipe.move pipe, add) c fit)
    as [[[pipe' add'] c'] fit'].
  cbn [fst snd] in *. exists c', fit'.
  split; [|split; assumption].
  rewrite flips_scanned. unfold scanned.
  change (Pipe.passed (Pipe.move pipe)) with (Pipe.passed pipe) in Hst.
  destruct (negb (Pipe.passed pipe) && overtaken A (Pipe.move pipe) c);
    injection Hst as -> ->; [now rewrite orb_true_r|now rewrite orb_false_r].
Qed.

(** The pipe loop as a whole.  Every pipe is moved and scanned against the
    cohort the earlier pipes have left; [add_pipe] is raised exactly when
    some flag flips; [rem] collects the pipes that are off the screen; the
    cohort shrinks, and the store books one [-= 1] per removed row. *)
Lemma pipes_loop_spec A : forall ps c fit add rem,
  exists ps' c' fit',
    pipes_loop A ps c fit add rem =
      (ps', c', fit',
       add || existsb (fun pp => flips (fst pp) (snd pp)) (combine ps ps'),
       rem ++ filter (off_screen A) ps') /\
    subseq c' c /\
    (forall g, fit' g = Nat.iter (occ g c - occ g c') penalty (fit g)) /\
    Forall2 (fun p p' => exists ci,
                 subseq ci c /\ subseq c' ci /\ p' = scanned A p ci) ps ps' /\
    (forall p0 ps0, ps = p0 :: ps0 ->
                    exists ps0', ps' = scanned A p0 c :: ps0').
Proof.
  induction ps as [|pipe ps IH]; intros c fit add rem.
  - exists [], c, fit. cbn. rewrite orb_false_r, app_nil_r.
    split; [reflexivity|]. split; [apply subseq_refl|].
    split; [intro g; now rewrite Nat.sub_diag|].
    split; [constructor|discriminate].
  - cbn [pipes_loop].
    destruct (pipe_step_spec A pipe add c fit) as (c1 & fit1 & E1 & S1 & A1).
    rewrite E1.
    set (p1 := scanned A pipe c) in *.
    set (rem1 := if off_screen A p1 then rem ++ [p1] else rem).
    destruct (IH c1 fit1 (add || flips pipe p1) rem1)
      as (ps2 & c2 & fit2 & E2 & S2 & A2 & F2 & _).
    rewrite E2. exists (p1 :: ps2), c2, fit2.
    split; [|split; [|split; [|split]]].
    + cbn [combine existsb fst snd filter]. rewrite orb_assoc.
      f_equal. subst rem1. destruct (off_screen A p1).
      * now rewrite <- app_assoc.
      * reflexivity.
    + eapply subseq_trans; eassumption.
    + intro g. rewrite A2, A1, <- Nat.iter_add. f_equal.
      pose proof (occ_subseq g _ _ S1). pose proof (occ_subseq g _ _ S2).
      lia.
    + constructor.
      * exists c. split; [apply subseq_refl|].
        split; [eapply subseq_trans; eassumption|reflexivity].
      * eapply Forall2_impl; [|exact F2].
        intros p p' (ci & Hci & Hc2 & ->). exists ci.
        split; [eapply subseq_trans; eassumption|]. split; auto.
    + intros p0 ps0 [= <- <-]. now exists ps2.
Qed.

Lemma scanned_x A p c : Pipe.x (scanned A p c) = Pipe.x p - Pipe.VEL.
Proof. unfold scanned. now destruct (_ && _). Qed.

Lemma scanned_shape A p c :
  Pipe.height (scanned A p c) = Pipe.height p /\
  Pipe.top (scanned A p c) = Pipe.top p /\
  Pipe.bottom (scanned A p c) = Pipe.bottom p.
Proof. unfold scanned. now destruct (_ && _). Qed.

Lemma scanned_keeps_flag A p c :
  Pipe.passed p = true -> Pipe.passed (scanned A p c) = true.
Proof. intro H. unfold scanned. rewrite H. exact H. Qed.

(** A flag is only set for a bird of the scanned cohort that has the moved
    pipe behind it. *)
Lemma scanned_sound A p c :
  Pipe.passed p = false -> Pipe.passed (scanned A p c) = true ->
  exists a, In a c /\ Pipe.x p - Pipe.VEL < Bird.x (bird a).
Proof.
  intros Hp H. unfold scanned in H. rewrite Hp in H. cbn [negb andb] in H.
  destruct (overtaken A (Pipe.move p) c) eqn:E.
  - unfold overtaken in E. apply existsb_exists in E as (a & Hin & Hb).
    exists a. split; [eapply visited_In, Hin|].
    unfold behind in Hb. now apply Z.ltb_lt in Hb.
  - cbn in H. congruence.
Qed.

(** The first row of the cohort is always looked at. *)
Lemma scanned_first A p a r :
  Pipe.x p - Pipe.VEL < Bird.x (bird a) ->
  Pipe.passed (scanned A p (a :: r)) = true.
Proof.
  intro H. unfold scanned.
  assert (E : overtaken A (Pipe.move p) (a :: r) = true).
  { unfold overtaken. apply existsb_exists. exists a.
    split; [apply visited_head|]. now apply Z.ltb_lt. }
  rewrite E. destruct (Pipe.passed p) eqn:Hp; cbn; [exact Hp|reflexivity].
Qed.

Lemma Forall2_combine_In {X Y} (R : X -> Y -> Prop) l l' a b :
  Forall2 R l l' -> In (a, b) (combine l l') -> R a b.
Proof.
  induction 1 as [|x y l l' H F IH]; cbn; [intros []|].
  intros [[= -> ->]|Hin]; auto.
Qed.

(** ** One tick, phase by phase *)

Lemma spawn_spec A add sc c fit ps r :
  spawn A add sc c fit ps r =
  (sc + (if add then 1 else 0),
   (if add then reward c fit else fit),
   (if add then ps ++ [fst (Pipe.init A 600 r)] else ps),
   (if add then snd (Pipe.init A 600 r) else r)).
Proof.
  unfold spawn. destruct add; [|now rewrite Z.add_0_r].
  now destruct (Pipe.init A 600 r).
Qed.

Lemma tick_phases A s c1 fit1 log ps1 c2 fit2 add rem :
  cohort s <> [] ->
  think (pipes s) (pipe_ind A (cohort s) (pipes s)) (cohort s) (fitness s)
    = Some (c1, fit1, log) ->
  pipes_loop A (pipes s) c1 fit1 false [] = (ps1, c2, fit2, add, rem) ->
  tick A s =
  Running
    {| cohort :=
         draw_window A
           (fst (bounds_scan c2 (if add then reward c2 fit2 else fit2)));
       fitness := snd (bounds_scan c2 (if add then reward c2 fit2 else fit2));
       pipes := retire rem (spawned A add s ps1);
       score := score s + (if add then 1 else 0);
       rng := if add then snd (Pipe.init A 600 (rng s)) else rng s |}.
Proof.
  intros Hc Ht Hp. unfold tick.
  destruct (cohort s) as [|a0 c0] eqn:Ec; [congruence|].
  rewrite Ht, Hp, spawn_spec.
  now destruct (bounds_scan c2 _) as [c5 fit5].
Qed.

Lemma think_runs ps ind c fit :
  (ind < length ps)%nat ->
  exists c1 fit1 log, think ps ind c fit = Some (c1, fit1, log).
Proof.
  intro H. destruct (nth_error ps ind) as [target|] eqn:E.
  - rewrite (think_target _ _ _ E). eauto.
  - apply nth_error_None in E. lia.
Qed.

Lemma pipe_ind_lt A c ps : ps <> [] -> (pipe_ind A c ps < length ps)%nat.
Proof.
  intro H. unfold pipe_ind. destruct c as [|b0 c0]; [destruct ps; cbn; [congruence|lia]|].
  destruct ps as [|p0 [|p1 ps']]; [congruence|cbn; lia|].
  destruct (_ <? _); cbn; lia.
Qed.

Lemma think_cohort ps ind c fit c1 fit1 log :
  think ps ind c fit = Some (c1, fit1, log) ->
  gids c1 = gids c /\
  (forall a1, In a1 c1 ->
     exists a, In a c /\ ge a1 = ge a /\ Bird.x (bird a1) = Bird.x (bird a)) /\
  (c <> [] -> c1 <> []).
Proof.
  intro H. destruct c as [|a0 c0].
  - cbn in H. injection H as <- <- <-. repeat split; auto.
    intros a1 [].
  - destruct (think_inv _ _ _ _ _ _ _ H ltac:(discriminate))
      as (target & _ & -> & _ & _).
    split; [|split].
    + unfold gids. rewrite map_map. reflexivity.
    + intros a1 Hin. apply in_map_iff in Hin as (a & <- & Hin).
      exists a. split; [exact Hin|]. split; [reflexivity|].
      unfold decide. cbn [fst with_bird bird].
      now destruct (Qltb _ _).
    + intros _. discriminate.
Qed.

Lemma reward_account g : forall c fit,
  reward c fit g = Nat.iter (occ g c) pass_reward (fit g).
Proof.
  induction c as [|a r IH]; intro fit; cbn [reward occ]; [reflexivity|].
  rewrite IH, fit_add_at, Nat.add_comm, Nat.iter_add. reflexivity.
Qed.

Lemma subseq_nonempty {X} (l' l : list X) : subseq l' l -> l' <> [] -> l <> [].
Proof. intros H Hn ->. inversion H; subst. congruence. Qed.

(** C4.  In a tick of a cohort whose birds share the horizontal position
    [bx] (230 in the game), every pipe is moved by [VEL]; a set flag stays
    set; a flag is set in this tick only for a pipe that is now behind
    [bx], and it is set for every such pipe as long as an agent is left to
    look at it (always for the first pipe).  [add_pipe] is raised exactly
    when some flag goes from unset to set in this tick, and the stream then
    grows by exactly one new pipe, however many agents or pipes were
    involved; without such a flip nothing is appended. *)
Theorem pass_then_spawn (A : Assets) (s : State) (bx : Z) :
  cohort s <> [] -> pipes s <> [] ->
  (forall a, In a (cohort s) -> Bird.x (bird a) = bx) ->
  exists c1 fit1 log ps1 c2 fit2 add rem s',
    think (pipes s) (pipe_ind A (cohort s) (pipes s)) (cohort s) (fitness s)
      = Some (c1, fit1, log) /\
    pipes_loop A (pipes s) c1 fit1 false [] = (ps1, c2, fit2, add, rem) /\
    tick A s = Running s' /\
    length ps1 = length (pipes s) /\
    (forall p p', In (p, p') (combine (pipes s) ps1) ->
       Pipe.x p' = Pipe.x p - Pipe.VEL /\
       (Pipe.passed p = true -> Pipe.passed p' = true) /\
       (Pipe.passed p = false -> Pipe.passed p' = true -> Pipe.x p' < bx) /\
       (c2 <> [] -> Pipe.x p' < bx -> Pipe.passed p' = true)) /\
    (forall p0 ps0, pipes s = p0 :: ps0 ->
       exists p0' ps0', ps1 = p0' :: ps0' /\
                        (Pipe.x p0' < bx -> Pipe.passed p0' = true)) /\
    (add = true <->
     exists p p', In (p, p') (combine (pipes s) ps1) /\
                  Pipe.passed p = false /\ Pipe.passed p' = true) /\
    pipes s' =
      retire rem (if add then ps1 ++ [fst (Pipe.init A 600 (rng s))]
                  else ps1) /\
    score s' = score s + (if add then 1 else 0).
Proof.
  intros Hc Hp Hx.
  destruct (think_runs (pipes s) _ (cohort s) (fitness s)
              (pipe_ind_lt A (cohort s) (pipes s) Hp))
    as (c1 & fit1 & log & Ht).
  destruct (think_cohort _ _ _ _ _ _ _ Ht) as (_ & Hc1 & Hne).
  assert (Hx1 : forall a, In a c1 -> Bird.x (bird a) = bx).
  { intros a1 Hin. destruct (Hc1 a1 Hin) as (a & Ha & _ & ->). auto. }
  destruct (pipes_loop_spec A (pipes s) c1 fit1 false [])
    as (ps1 & c2 & fit2 & E & Hsub & _ & F & Hhead).
  cbn [orb app] in E.
  set (add := existsb (fun pp => flips (fst pp) (snd pp))
                      (combine (pipes s) ps1)) in E.
  exists c1, fit1, log, ps1, c2, fit2, add, (filter (off_screen A) ps1).
  eexists. split; [exact Ht|]. split; [exact E|].
  split; [exact (tick_phases A s _ _ _ _ _ _ _ _ Hc Ht E)|].
  cbn [pipes score]. unfold spawned.
  split; [symmetry; eapply Forall2_length, F|].
  split; [|split; [|split; [|split; reflexivity]]].
  - intros p p' Hin.
    destruct (Forall2_combine_In _ _ _ _ _ F Hin) as (ci & Hci & Hc2 & ->).
    assert (Hxi : forall a, In a ci -> Bird.x (bird a) = bx).
    { intros a Ha. apply Hx1. eapply subseq_In; eassumption. }
    rewrite scanned_x.
    split; [reflexivity|]. split; [apply scanned_keeps_flag|]. split.
    + intros Hf Hs. destruct (scanned_sound A p ci Hf Hs) as (a & Ha & Hlt).
      rewrite (Hxi a Ha) in Hlt. exact Hlt.
    + intros Hn Hlt. apply (subseq_nonempty _ _ Hc2) in Hn.
      destruct ci as [|a r]; [congruence|].
      apply scanned_first. rewrite (Hxi a (or_introl eq_refl)). exact Hlt.
  - intros p0 ps0 Hps. destruct (Hhead p0 ps0 Hps) as (ps0' & ->).
    exists (scanned A p0 c1), ps0'. split; [reflexivity|].
    rewrite scanned_x. intro Hlt.
    destruct c1 as [|a r]; [now elim (Hne Hc)|].
    apply scanned_first. rewrite (Hx1 a (or_introl eq_refl)). exact Hlt.
  - subst add. rewrite existsb_exists. split.
    + intros ([p p'] & Hin & Hf). exists p, p'. split; [exact Hin|].
      unfold flips in Hf. cbn [fst snd] in Hf.
      apply andb_true_iff in Hf as [Hf1 Hf2].
      apply negb_true_iff in Hf1. auto.
    + intros (p & p' & Hin & Hf1 & Hf2). exists (p, p').
      split; [exact Hin|]. unfold flips. cbn [fst snd].
      now rewrite Hf1, Hf2.
Qed.

Lemma pass_then_spawn_witness :
  cohort passing_state <> [] /\ pipes passing_state <> [] /\
  (forall a, In a (cohort passing_state) -> Bird.x (bird a) = 230) /\
  exists s', tick sample_assets passing_state = Running s' /\
             score s' = 1 /\ length (pipes s') = 2%nat.
Proof.
  assert (Hc : cohort passing_state <> []) by discriminate.
  assert (Hp : pipes passing_state <> []) by discriminate.
  assert (Hx : forall a, In a (cohort passing_state) ->
                         Bird.x (bird a) = 230).
  { intros a [<-|[]]. reflexivity. }
  split; [exact Hc|]. split; [exact Hp|]. split; [exact Hx|].
  destruct (pass_then_spawn sample_assets passing_state 230 Hc Hp Hx)
    as (c1 & fit1 & log & ps1 & c2 & fit2 & add & rem & s' & _ & _ & Ht & _).
  exists s'. split; [exact Ht|].
  vm_compute in Ht. injection Ht as <-. split; reflexivity.
Defined.

(** ** Fitness accounting *)

Lemma occ_gids g : forall c1 c2, gids c1 = gids c2 -> occ g c1 = occ g c2.
Proof.
  induction c1 as [|a r IH]; intros [|b r'] H; try discriminate;
    [reflexivity|].
  cbn in H. injection H as Hab Hr. cbn [occ]. now rewrite Hab, (IH r' Hr).
Qed.

Lemma think_account ps ind c fit c1 fit1 log g :
  think ps ind c fit = Some (c1, fit1, log) ->
  fit1 g = Nat.iter (occ g c) survival (fit g).
Proof.
  intro H. destruct c as [|a0 c0].
  - cbn in H. injection H as _ <- _. reflexivity.
  - destruct (think_inv _ _ _ _ _ _ _ H ltac:(discriminate))
      as (_ & _ & _ & -> & _).
    clear H. generalize (a0 :: c0) as c. intro c. revert fit.
    induction c as [|a r IH]; intro fit; cbn [fold_left occ]; [reflexivity|].
    rewrite IH, fit_add_at, Nat.add_comm, Nat.iter_add. reflexivity.
Qed.

Lemma draw_window_gids A c : gids (draw_window A c) = gids c.
Proof. unfold draw_window, gids. rewrite map_map. reflexivity. Qed.

Lemma tick_running_inv A s s' :
  tick A s = Running s' ->
  cohort s <> [] /\
  exists c1 fit1 log,
    think (pipes s) (pipe_ind A (cohort s) (pipes s)) (cohort s) (fitness s)
      = Some (c1, fit1, log).
Proof.
  unfold tick. destruct (cohort s) as [|a0 c0] eqn:Ec; [discriminate|].
  destruct (think _ _ _ _) as [[[c1 fit1] log]|]; [|discriminate].
  intros _. split; [discriminate|]. eauto.
Qed.

(** One tick in the books of one genome: the bookings are made in the order
    of the loop body, each rounding as Python's [+=] and [-=] do. *)
Lemma tick_account A s s' g :
  tick A s = Running s' ->
  NoDup (gids (cohort s)) ->
  subseq (gids (cohort s')) (gids (cohort s)) /\
  (rewarded A s g = true -> alive g (cohort s) = true) /\
  fitness s' g =
    fold_left book
      (tick_events (alive g (cohort s)) (rewarded A s g)
                   (alive g (cohort s')))
      (fitness s g).
Proof.
  intros Ht N.
  destruct (tick_running_inv A s s' Ht) as (Hc & c1 & fit1 & log & Hth).
  destruct (think_cohort _ _ _ _ _ _ _ Hth) as (Hg & _ & _).
  pose proof (think_account _ _ _ _ _ _ _ g Hth) as A1.
  destruct (pipes_loop_spec A (pipes s) c1 fit1 false [])
    as (ps1 & c2 & fit2 & E & Hsub & A2 & _ & _).
  cbn [orb app] in E.
  set (add := existsb (fun pp => flips (fst pp) (snd pp))
                      (combine (pipes s) ps1)) in E.
  rewrite (tick_phases A s _ _ _ _ _ _ _ _ Hc Hth E) in Ht.
  injection Ht as <-. cbn [cohort fitness].
  unfold rewarded. rewrite Hth, E.
  set (fit3 := if add then reward c2 fit2 else fit2).
  rewrite bounds_scan_sweep. cbn [fst snd].
  assert (N1 : NoDup (gids c1)) by now rewrite Hg.
  assert (N2 : NoDup (gids c2)).
  { apply (subseq_NoDup (gids c2) (gids c1)); [apply subseq_map, Hsub|].
    exact N1. }
  pose proof (sweep_subseq bounds_body c2 tt fit3) as Hsub5.
  pose proof (sweep_account_alive bounds_body g c2 tt fit3 N2) as A5.
  destruct (sweep bounds_body tt c2 fit3) as [[u c5] fit5].
  cbn [fst snd] in *.
  assert (Hal2 : alive g c2 = true -> alive g (cohort s) = true).
  { intro H. unfold alive. rewrite <- Hg. eapply alive_subseq; eassumption. }
  assert (Hal5 : alive g c5 = true -> alive g c2 = true).
  { apply alive_subseq, Hsub5. }
  split; [|split].
  - rewrite draw_window_gids, <- Hg.
    apply subseq_map. eapply subseq_trans; eassumption.
  - intro H. apply andb_true_iff in H as [_ H]. auto.
  - assert (A3 : fit3 g = if add && alive g c2 then pass_reward (fit2 g)
                          else fit2 g).
    { subst fit3. destruct add; cbn [andb]; [|reflexivity].
      rewrite reward_account, (occ_alive g c2 N2).
      now destruct (alive g c2). }
    assert (Ea : alive g (draw_window A c5) = alive g c5).
    { unfold alive. now rewrite draw_window_gids. }
    rewrite Ea, A5, A3, (A2 g), A1.
    rewrite (occ_gids g c1 (cohort s) Hg).
    rewrite (occ_alive g (cohort s) N), (occ_alive g c2 N2).
    destruct (alive g (cohort s)) eqn:E0, (alive g c2) eqn:E2,
             (alive g c5) eqn:E5, add;
      try (specialize (Hal2 eq_refl); discriminate);
      try (specialize (Hal5 eq_refl); discriminate);
      reflexivity.
Qed.

Lemma run_account A g : forall n s,
  NoDup (gids (cohort s)) ->
  NoDup (gids (cohort (run A n s))) /\
  (alive g (cohort (run A n s)) = true -> alive g (cohort s) = true) /\
  (alive g (cohort s) = false ->
   ticks_alive A n s g = O /\ passes_seen A n s g = O /\
   events A n s g = []) /\
  fitness (run A n s) g = fold_left book (events A n s g) (fitness s g).
Proof.
  induction n as [|n IH]; intros s N.
  - cbn [run ticks_alive passes_seen events]. repeat split; auto.
  - cbn [run ticks_alive passes_seen events].
    destruct (tick A s) as [s'| |] eqn:Ht.
    + destruct (tick_account A s s' g Ht N) as (Hsub & Hrw & Hfit).
      assert (N' : NoDup (gids (cohort s')))
        by (eapply subseq_NoDup; eassumption).
      destruct (IH s' N') as (Nn & Hal & Hdead & Hrun).
      assert (Hal' : alive g (cohort s') = true ->
                     alive g (cohort s) = true).
      { rewrite !alive_In. now apply subseq_In. }
      split; [exact Nn|]. split; [auto|]. split.
      * intro Hd. destruct (alive g (cohort s')) eqn:E'.
        { rewrite (Hal' eq_refl) in Hd. discriminate. }
        destruct (Hdead eq_refl) as (-> & -> & ->).
        destruct (rewarded A s g) eqn:Er;
          [rewrite (Hrw eq_refl) in Hd; discriminate|].
        now rewrite Hd.
      * rewrite Hrun, Hfit, fold_left_app. reflexivity.
    + repeat split; auto.
    + repeat split; auto.
Qed.

Lemma count_app e l l' : count e (l ++ l') = (count e l + count e l')%nat.
Proof. unfold count. now rewrite filter_app, length_app. Qed.

(** The bookings are those of the claim: one survival reward per tick at
    whose start the genome is in the cohort, one pass reward per tick whose
    reward reaches it, one penalty when it leaves the cohort. *)
Lemma events_count A g : forall n s,
  NoDup (gids (cohort s)) ->
  count Survived (events A n s g) = ticks_alive A n s g /\
  count Passed (events A n s g) = passes_seen A n s g /\
  count Died (events A n s g) =
    (if alive g (cohort s) && negb (alive g (cohort (run A n s)))
     then 1 else 0)%nat.
Proof.
  induction n as [|n IH]; intros s N.
  - cbn [run ticks_alive passes_seen events].
    repeat split. now destruct (alive g (cohort s)).
  - cbn [run ticks_alive passes_seen events].
    destruct (tick A s) as [s'| |] eqn:Ht.
    + destruct (tick_account A s s' g Ht N) as (Hsub & Hrw & _).
      assert (N' : NoDup (gids (cohort s')))
        by (eapply subseq_NoDup; eassumption).
      destruct (IH s' N') as (IH1 & IH2 & IH3).
      destruct (run_account A g n s' N') as (_ & Hback & _ & _).
      assert (Hal' : alive g (cohort s') = true ->
                     alive g (cohort s) = true).
      { rewrite !alive_In. now apply subseq_In. }
      rewrite !count_app, IH1, IH2, IH3.
      destruct (alive g (cohort s)) eqn:E0, (rewarded A s g) eqn:Er,
               (alive g (cohort s')) eqn:E1,
               (alive g (cohort (run A n s'))) eqn:En;
        try (specialize (Hal' eq_refl); discriminate);
        try (specialize (Hback eq_refl); discriminate);
        try (specialize (Hrw eq_refl); discriminate);
        repeat split; reflexivity.
    + repeat split. now destruct (alive g (cohort s)).
    + repeat split. now destruct (alive g (cohort s)).
Qed.

(** The penalty is the last booking of a genome. *)
Lemma events_last A g : forall n s,
  NoDup (gids (cohort s)) ->
  alive g (cohort s) = true ->
  alive g (cohort (run A n s)) = false ->
  exists evs, events A n s g = evs ++ [Died] /\ count Died evs = O.
Proof.
  induction n as [|n IH]; intros s N H1 H0.
  - cbn [run] in H0. congruence.
  - cbn [run events] in *.
    destruct (tick A s) as [s'| |] eqn:Ht; try congruence.
    destruct (tick_account A s s' g Ht N) as (Hsub & _ & _).
    assert (N' : NoDup (gids (cohort s')))
      by (eapply subseq_NoDup; eassumption).
    rewrite H1. destruct (alive g (cohort s')) eqn:E1.
    + destruct (IH s' N' E1 H0) as (evs & -> & Hc).
      exists (tick_events true (rewarded A s g) true ++ evs).
      split; [now rewrite app_assoc|].
      rewrite count_app, Hc. now destruct (rewarded A s g).
    + destruct (run_account A g n s' N') as (_ & _ & Hdead & _).
      destruct (Hdead E1) as (_ & _ & ->). rewrite app_nil_r.
      exists ([Survived] ++ (if rewarded A s g then [Passed] else [])).
      split; [|now destruct (rewarded A s g)].
      unfold tick_events. cbn [andb negb]. now rewrite app_assoc.
Qed.

Lemma start_fresh A genomes create fit0 r g :
  gids (cohort (start A genomes create fit0 r)) = genomes /\
  (In g genomes -> fitness (start A genomes create fit0 r) g = 0%float).
Proof.
  unfold start. destruct (Pipe.init A 600 r) as [p r'].
  cbn [cohort fitness]. split.
  - unfold gids. rewrite map_map. cbn [ge]. apply map_id.
  - intro H. replace (existsb (Nat.eqb g) genomes) with true; [reflexivity|].
    symmetry. apply existsb_exists. exists g.
    split; [exact H|apply Nat.eqb_refl].
Qed.

(** C5, as the code has it.  Take any state in which no genome has two
    agents and the fitness of [g], which is in the cohort, is still 0, as
    [eval_genomes] sets it up.  After [n] more ticks the fitness of [g] is
    what the bookings of these ticks make of 0, one after the other in
    binary64 arithmetic, and nothing else: [+= 0.1] for each tick at whose
    start it was in the cohort, [+= 5] for each pass reward handed out
    while it was still in the cohort, that is after the collision scans of
    that tick, and [-= 1] once, as the last booking, if it is no longer in
    the cohort.  Once [g] has left the cohort its fitness does not change
    any more. *)
Theorem fitness_accounting (A : Assets) (s : State) (n : nat) (g : nat) :
  NoDup (gids (cohort s)) ->
  alive g (cohort s) = true ->
  fitness s g = 0%float ->
  let final := run A n s in
  let evs := events A n s g in
  fitness final g = fold_left book evs 0%float /\
  count Survived evs = ticks_alive A n s g /\
  count Passed evs = passes_seen A n s g /\
  count Died evs = (if alive g (cohort final) then 0 else 1)%nat /\
  (alive g (cohort final) = false ->
   (exists evs', evs = evs' ++ [Died] /\ count Died evs' = O) /\
   forall m, fitness (run A m final) g = fitness final g).
Proof.
  intros N Hal H0 final evs.
  destruct (run_account A g n s N) as (Nn & _ & _ & Hrun).
  destruct (events_count A g n s N) as (C1 & C2 & C3).
  fold final in Nn, Hrun, C3. fold evs in Hrun, C1, C2, C3.
  rewrite H0 in Hrun. rewrite Hal in C3. cbn [andb] in C3.
  split; [exact Hrun|]. split; [exact C1|]. split; [exact C2|].
  split; [rewrite C3; now destruct (alive g (cohort final))|].
  intro Hd. split; [exact (events_last A g n s N Hal Hd)|].
  intro m.
  destruct (run_account A g m final Nn) as (_ & _ & Hz & Hm).
  destruct (Hz Hd) as (_ & _ & He). now rewrite Hm, He.
Qed.

(** The example of the claim: ten ticks, a pass in the first of them and a
    collision in the tenth.  The bookings are ten survival rewards, one pass
    reward and one penalty; what they make of 0 is 4.9999999999999964. *)
Lemma fitness_accounting_witness :
  NoDup (gids (cohort crash_state)) /\
  alive 7 (cohort crash_state) = true /\
  fitness crash_state 7%nat = 0%float /\
  ticks_alive sample_assets 12 crash_state 7 = 10%nat /\
  passes_seen sample_assets 12 crash_state 7 = 1%nat /\
  alive 7 (cohort (run sample_assets 12 crash_state)) = false /\
  fitness (run sample_assets 12 crash_state) 7%nat =
    fold_left book (events sample_assets 12 crash_state 7) 0%float /\
  fitness (run sample_assets 12 crash_state) 7%nat
    = 4.9999999999999964%float.
Proof.
  assert (N : NoDup (gids (cohort crash_state))).
  { cbn. repeat constructor. intros []. }
  split; [exact N|]. split; [reflexivity|]. split; [reflexivity|].
  split; [vm_compute; reflexivity|]. split; [vm_compute; reflexivity|].
  split; [vm_compute; reflexivity|].
  split; [|vm_compute; reflexivity].
  exact (proj1 (fitness_accounting sample_assets crash_state 12 7
                  N eq_refl eq_refl)).
Defined.

(** C5 as stated fails twice.  An agent that is killed by a pipe in the very
    tick in which that pipe is passed gets no pass reward: the flag is set
    while the first bird is looked at, when the second is still in the
    cohort; the second then collides and is removed before the reward is
    handed out, and ends with 0.1 - 1, not with 0.1 + 5 - 1.  And the sum
    is a binary64 sum: the ten ticks, one pass and one collision of the
    claim's example give 4.9999999999999964, not 5.0. *)
Lemma collision_forfeits_pass_reward :
  let final := run sample_assets 1 forfeit_state in
  ticks_alive sample_assets 1 forfeit_state 2 = 1%nat /\
  passes_while_live sample_assets 1 forfeit_state 2 = 1%nat /\
  alive 2 (cohort final) = false /\
  score final = 1 /\
  fitness final 1%nat = 5.1%float /\
  fitness final 2%nat = (-0.9)%float /\
  fitness final 2%nat <> (0.1 + 5 - 1)%float /\
  fitness (run sample_assets 12 crash_state) 7%nat <> 5%float.
Proof.
  intro final. repeat split; try (vm_compute; reflexivity);
    vm_compute; discriminate.
Qed.

(** ** The pass reward *)







(** ** The states the game reaches *)

Lemma draw_x A b : Bird.x (Bird.draw A b) = Bird.x b.
Proof.
  unfold Bird.draw.
  repeat match goal with
         | |- context [if ?c then _ else _] => destruct c
         end; reflexivity.
Qed.

Lemma tick_cohort_from A s s' a' :
  tick A s = Running s' -> In a' (cohort s') ->
  exists a, In a (cohort s) /\ ge a' = ge a /\
            Bird.x (bird a') = Bird.x (bird a).
Proof.
  intros Ht Hin.
  destruct (tick_running_inv A s s' Ht) as (Hc & c1 & fit1 & log & Hth).
  destruct (think_cohort _ _ _ _ _ _ _ Hth) as (_ & Hc1 & _).
  destruct (pipes_loop_spec A (pipes s) c1 fit1 false [])
    as (ps1 & c2 & fit2 & E & Hsub & _ & _ & _).
  rewrite (tick_phases A s _ _ _ _ _ _ _ _ Hc Hth E) in Ht.
  injection Ht as <-. cbn [cohort] in Hin.
  rewrite bounds_scan_sweep in Hin. cbn [fst] in Hin.
  unfold draw_window in Hin. apply in_map_iff in Hin as (a5 & <- & Hin).
  destruct (Hc1 a5) as (a & Ha & Hg & Hx).
  { eapply subseq_In; [exact Hsub|].
    eapply subseq_In; [apply (sweep_subseq bounds_body)|exact Hin]. }
  exists a. cbn [with_bird ge bird]. rewrite draw_x. auto.
Qed.

(** The birds never leave the column they start in. *)
Lemma run_shared_x A bx : forall n s,
  (forall a, In a (cohort s) -> Bird.x (bird a) = bx) ->
  forall a, In a (cohort (run A n s)) -> Bird.x (bird a) = bx.
Proof.
  induction n as [|n IH]; intros s Hx; [exact Hx|].
  cbn [run]. destruct (tick A s) as [s'| |] eqn:Ht; try exact Hx.
  apply IH. intros a' Hin.
  destruct (tick_cohort_from A s s' a' Ht Hin) as (a & Ha & _ & ->). auto.
Qed.

Lemma start_shared_x A genomes create fit0 r a :
  In a (cohort (start A genomes create fit0 r)) -> Bird.x (bird a) = 230.
Proof.
  unfold start. destruct (Pipe.init A 600 r) as [p r']. cbn [cohort].
  intro H. apply in_map_iff in H as (g & <- & _). reflexivity.
Qed.

Lemma eqb_off_screen A p q :
  off_screen A p = true -> off_screen A q = false -> Pipe.eqb p q = false.
Proof.
  unfold off_screen, Pipe.eqb. intros Hp Hq.
  destruct (Pipe.x p =? Pipe.x q) eqn:E; [|reflexivity].
  apply Z.eqb_eq in E. rewrite E in Hp. congruence.
Qed.

Lemma remove_first_last p q l :
  Pipe.eqb p q = false -> exists l', remove_first p (l ++ [q]) = l' ++ [q].
Proof.
  intro Hq. induction l as [|x l [l' IH]]; cbn [app remove_first].
  - exists []. now rewrite Hq.
  - destruct (Pipe.eqb p x); [now exists l|].
    exists (x :: l'). now rewrite IH.
Qed.

(** A pipe on the screen at the end of the stream stays at its end when the
    pipes that left the screen are removed. *)
Lemma retire_keeps_last A q : forall rem l,
  Forall (fun p => off_screen A p = true) rem -> off_screen A q = false ->
  exists l', retire rem (l ++ [q]) = l' ++ [q].
Proof.
  unfold retire.
  induction rem as [|p rem IH]; intros l Hrem Hq; cbn [fold_left].
  - now exists l.
  - inversion Hrem as [|? ? Hp Hrem']; subst.
    destruct (remove_first_last p q l (eqb_off_screen A p q Hp Hq))
      as (l1 & ->).
    now apply IH.
Qed.

Lemma combine_last_In {X Y} (a : X) (b : Y) : forall l l',
  length l = length l' -> In (a, b) (combine (l ++ [a]) (l' ++ [b])).
Proof.
  induction l as [|x l IH]; intros [|y l'] H; try discriminate.
  - now left.
  - right. apply IH. now injection H.
Qed.

Lemma init_fresh A x0 r :
  Pipe.x (fst (Pipe.init A x0 r)) = x0 /\
  Pipe.passed (fst (Pipe.init A x0 r)) = false.
Proof.
  unfold Pipe.init. destruct (randrange 50 450 r). now cbn.
Qed.

(** As long as an agent is left, the stream ends with a pipe that is still
    ahead of the birds. *)
Lemma tick_last_open A s s' :
  0 <= get_width (PIPE_IMG A) ->
  (forall a, In a (cohort s) -> Bird.x (bird a) = 230) ->
  last_open 230 (pipes s) ->
  tick A s = Running s' ->
  cohort s' = [] \/ last_open 230 (pipes s').
Proof.
  intros Hw Hx (l & p & Hps & Hpf & Hpx) Ht.
  destruct (tick_running_inv A s s' Ht) as (Hc & c1 & fit1 & log & Hth).
  destruct (think_cohort _ _ _ _ _ _ _ Hth) as (_ & Hc1 & _).
  assert (Hx1 : forall a, In a c1 -> Bird.x (bird a) = 230).
  { intros a1 Hin. destruct (Hc1 a1 Hin) as (a & Ha & _ & ->). auto. }
  destruct (pipes_loop_spec A (pipes s) c1 fit1 false [])
    as (ps1 & c2 & fit2 & E & Hsub & _ & F & _).
  cbn [orb app] in E.
  rewrite (tick_phases A s _ _ _ _ _ _ _ _ Hc Hth E) in Ht.
  injection Ht as <-. cbn [cohort pipes].
  destruct c2 as [|a2 r2].
  { left. rewrite bounds_scan_sweep. cbn. reflexivity. }
  right.
  rewrite Hps in F. apply Forall2_app_inv_l in F
    as (l1 & l2 & F1 & F2 & ->).
  inversion F2 as [|? p' ? ? (ci & Hci & Hc2 & Hp') F3]; subst.
  inversion F3; subst. clear F2 F3.
  assert (Hoff : forall q, 230 <= Pipe.x q -> off_screen A q = false).
  { intros q Hq. unfold off_screen. apply Z.ltb_ge.
    change (get_width (Pipe.PIPE_TOP A)) with (get_width (PIPE_IMG A)). lia. }
  assert (Hrem : Forall (fun q => off_screen A q = true)
                   (filter (off_screen A) (l1 ++ [scanned A p ci]))).
  { apply Forall_forall. intros q Hq. now apply filter_In in Hq. }
  unfold spawned.
  destruct (existsb _ _) eqn:Eadd.
  - destruct (init_fresh A 600 (rng s)) as [Hnx Hnp].
    destruct (retire_keeps_last A (fst (Pipe.init A 600 (rng s)))
                _ (l1 ++ [scanned A p ci]) Hrem) as (l' & ->).
    { apply Hoff. lia. }
    exists l', (fst (Pipe.init A 600 (rng s))).
    split; [reflexivity|]. split; [exact Hnp|]. lia.
  - assert (Hfl : flips p (scanned A p ci) = false).
    { destruct (flips p (scanned A p ci)) eqn:Ef; [|reflexivity].
      rewrite <- Eadd. symmetry. apply existsb_exists.
      exists (p, scanned A p ci). split; [|exact Ef].
      rewrite Hps. apply combine_last_In. eapply Forall2_length, F1. }
    unfold flips in Hfl. rewrite Hpf in Hfl. cbn [negb andb] in Hfl.
    assert (Hge : 230 <= Pipe.x (scanned A p ci)).
    { destruct (Z_lt_le_dec (Pipe.x (scanned A p ci)) 230) as [Hlt|]; [|lia].
      rewrite scanned_x in Hlt.
      destruct ci as [|a r]; [inversion Hc2|].
      rewrite scanned_first in Hfl; [discriminate|].
      rewrite (Hx1 a); [exact Hlt|].
      eapply subseq_In; [exact Hci|now left]. }
    destruct (retire_keeps_last A (scanned A p ci) _ l1 Hrem (Hoff _ Hge))
      as (l' & ->).
    exists l', (scanned A p ci). auto.
Qed.

Lemma run_last_open A : forall n s,
  0 <= get_width (PIPE_IMG A) ->
  (forall a, In a (cohort s) -> Bird.x (bird a) = 230) ->
  cohort s = [] \/ last_open 230 (pipes s) ->
  cohort (run A n s) = [] \/ last_open 230 (pipes (run A n s)).
Proof.
  induction n as [|n IH]; intros s Hw Hx Hs; [exact Hs|].
  cbn [run]. destruct (tick A s) as [s'| |] eqn:Ht; try exact Hs.
  apply IH; [exact Hw| |].
  - intros a' Hin.
    destruct (tick_cohort_from A s s' a' Ht Hin) as (a & Ha & _ & ->). auto.
  - destruct Hs as [Hs|Hs].
    + unfold tick in Ht. rewrite Hs in Ht. discriminate.
    + eapply tick_last_open; eassumption.
Qed.

(** From the state [eval_genomes] sets up, however long the game runs,
    [pipes[pipe_ind]] never raises: the next tick either ends the loop,
    because the cohort is empty, or goes through. *)
Lemma run_never_raises A genomes create fit0 r n :
  0 <= get_width (PIPE_IMG A) ->
  tick A (run A n (start A genomes create fit0 r)) <> IndexError.
Proof.
  intro Hw.
  destruct (run_last_open A n (start A genomes create fit0 r) Hw) as [H|H].
  - intros a. apply start_shared_x.
  - right. unfold start.
    destruct (init_fresh A 600 r) as [Hx Hp].
    destruct (Pipe.init A 600 r) as [p r']. cbn [pipes fst] in *.
    exists [], p. split; [reflexivity|]. split; [exact Hp|]. lia.
  - unfold tick. rewrite H. discriminate.
  - destruct H as (l & p & Hps & _).
    set (s := run A n (start A genomes create fit0 r)) in *.
    assert (Hne : pipes s <> []) by (rewrite Hps; now destruct l).
    unfold tick. destruct (cohort s) eqn:Ec; [discriminate|].
    rewrite <- Ec.
    destruct (think_runs (pipes s) _ (cohort s) (fitness s)
                (pipe_ind_lt A (cohort s) (pipes s) Hne))
      as (c1 & fit1 & log & ->).
    destruct (pipes_loop _ _ _ _ _ _) as [[[[? ?] ?] ?] ?].
    destruct (spawn _ _ _ _ _ _ _) as [[[? ?] ?] ?].
    destruct (bounds_scan _ _). discriminate.
Qed.

(** X17.  The cohorts the game reaches have one agent per genome, all in
    the column 230. *)
Lemma run_start_shape A genomes create fit0 r n :
  NoDup genomes ->
  NoDup (gids (cohort (run A n (start A genomes create fit0 r)))) /\
  forall a, In a (cohort (run A n (start A genomes create fit0 r))) ->
            Bird.x (bird a) = 230.
Proof.
  intro N. split.
  - apply (run_account A 0%nat n).
    now rewrite (proj1 (start_fresh A genomes create fit0 r 0%nat)).
  - apply run_shared_x. intro a. apply start_shared_x.
Qed.

(** * More of the program *)

(** ** The floor *)

Lemma base_move_invariant (W : Z) (b : Base.t) :
  Base.VEL <= W ->
  (Base.x2 b = Base.x1 b + W \/ Base.x1 b = Base.x2 b + W) ->
  - W <= Z.min (Base.x1 b) (Base.x2 b) <= 0 ->
  (Base.x2 (Base.move W b) = Base.x1 (Base.move W b) + W \/
   Base.x1 (Base.move W b) = Base.x2 (Base.move W b) + W) /\
  - W <= Z.min (Base.x1 (Base.move W b)) (Base.x2 (Base.move W b)) <= 0 /\
  Base.y (Base.move W b) = Base.y b.
Proof.
  intros HW Hadj Hmin. unfold Base.move, Base.VEL in *.
  cbn [Base.x1 Base.x2 Base.y].
  destruct (Base.x1 b - 5 + W <? 0) eqn:E1;
    [apply Z.ltb_lt in E1|apply Z.ltb_ge in E1];
    (destruct (Base.x2 b - 5 + W <? 0) eqn:E2;
     [apply Z.ltb_lt in E2|apply Z.ltb_ge in E2]); lia.
Qed.

(** X1.  However often the floor has moved, its two images lie side by
    side, the left one starts between [-WIDTH] and 0, and so every screen
    column from 0 up to the image width is on one of them; the floor stays
    at its height. *)
Theorem floor_covers (W y0 : Z) (n : nat) (px : Z) :
  Base.VEL <= W ->
  0 <= px < W ->
  let b := Nat.iter n (Base.move W) (Base.init W y0) in
  (Base.x2 b = Base.x1 b + W \/ Base.x1 b = Base.x2 b + W) /\
  (Base.on_image W (Base.x1 b) px \/ Base.on_image W (Base.x2 b) px) /\
  Base.y b = y0.
Proof.
  intros HW Hpx b.
  assert (H : (Base.x2 b = Base.x1 b + W \/ Base.x1 b = Base.x2 b + W) /\
              - W <= Z.min (Base.x1 b) (Base.x2 b) <= 0 /\ Base.y b = y0).
  { subst b. induction n as [|n IH].
    - cbn. unfold Base.VEL in HW. lia.
    - rewrite Nat.iter_succ. destruct IH as (Ha & Hm & Hy).
      destruct (base_move_invariant W _ HW Ha Hm) as (Ha' & Hm' & Hy').
      split; [exact Ha'|]. split; [exact Hm'|]. congruence. }
  destruct H as (Ha & Hm & Hy). split; [exact Ha|]. split; [|exact Hy].
  unfold Base.on_image. lia.
Qed.

Lemma floor_covers_witness :
  Base.VEL <= 672 /\ 0 <= 499 < 672 /\
  let b := Nat.iter 200 (Base.move 672) (Base.init 672 730) in
  Base.on_image 672 (Base.x1 b) 499 \/ Base.on_image 672 (Base.x2 b) 499.
Proof.
  assert (HW : Base.VEL <= 672) by (unfold Base.VEL; lia).
  assert (Hp : 0 <= 499 < 672) by lia.
  split; [exact HW|]. split; [exact Hp|].
  exact (proj1 (proj2 (floor_covers 672 730 200 499 HW Hp))).
Defined.

(** ** A bird's life *)

Lemma draw_keeps A b :
  Bird.x (Bird.draw A b) = Bird.x b /\
  Bird.y (Bird.draw A b) = Bird.y b /\
  Bird.tilt (Bird.draw A b) = Bird.tilt b /\
  Bird.tick_count (Bird.draw A b) = Bird.tick_count b /\
  Bird.vel (Bird.draw A b) = Bird.vel b /\
  Bird.height (Bird.draw A b) = Bird.height b.
Proof.
  unfold Bird.draw.
  repeat match goal with
         | |- context [if ?c then _ else _] => destruct c
         end; repeat split.
Qed.

Lemma draw_frame A b :
  0 <= Bird.img_count b <= 20 ->
  (Bird.img b = BIRD_IMG0 A \/ Bird.img b = BIRD_IMG1 A \/
   Bird.img b = BIRD_IMG2 A) ->
  0 <= Bird.img_count (Bird.draw A b) <= 20 /\
  (Bird.img (Bird.draw A b) = BIRD_IMG0 A \/
   Bird.img (Bird.draw A b) = BIRD_IMG1 A \/
   Bird.img (Bird.draw A b) = BIRD_IMG2 A).
Proof.
  intros Hc Hi. unfold Bird.draw, Bird.ANIMATION_TIME.
  repeat match goal with
         | |- context [if ?c then _ else _] => destruct c eqn:?
         end; cbn [Bird.img_count Bird.img];
    repeat match goal with
           | H : (_ <? _) = _ |- _ =>
               first [apply Z.ltb_lt in H | apply Z.ltb_ge in H]
           | H : (_ =? _) = _ |- _ =>
               first [apply Z.eqb_eq in H | apply Z.eqb_neq in H]
           end; split; try lia; auto.
Qed.

Lemma move_tilt b :
  -110 < Bird.tilt b <= 25 -> -110 < Bird.tilt (Bird.move b) <= 25.
Proof.
  intro H. unfold Bird.move, Bird.MAX_ROTATION, Bird.ROT_VEL.
  cbn [Bird.tilt].
  destruct (_ || _).
  - destruct (Bird.tilt b <? 25) eqn:E; lia.
  - destruct (-90 <? Bird.tilt b) eqn:E;
      [apply Z.ltb_lt in E|apply Z.ltb_ge in E]; lia.
Qed.

Lemma move_keeps b :
  Bird.x (Bird.move b) = Bird.x b /\
  Bird.tick_count (Bird.move b) = Bird.tick_count b + 1 /\
  Bird.vel (Bird.move b) = Bird.vel b /\
  Bird.height (Bird.move b) = Bird.height b /\
  Bird.img_count (Bird.move b) = Bird.img_count b /\
  Bird.img (Bird.move b) = Bird.img b.
Proof. unfold Bird.move. repeat split. Qed.

(** The state a bird can be in. *)
Lemma bird_after_invariant A x0 y0 ops :
  let b := bird_after A x0 y0 ops in
  Bird.x b = x0 /\
  0 <= Bird.tick_count b /\
  (Bird.vel b = 0%Q \/ Bird.vel b = (-10.5)%Q) /\
  -110 < Bird.tilt b <= 25 /\
  0 <= Bird.img_count b <= 20 /\
  (Bird.img b = BIRD_IMG0 A \/ Bird.img b = BIRD_IMG1 A \/
   Bird.img b = BIRD_IMG2 A).
Proof.
  unfold bird_after. induction ops as [|o ops IH] using rev_ind.
  - cbn. split; [reflexivity|]. split; [lia|]. split; [now left|].
    split; [lia|]. split; [lia|]. now left.
  - rewrite fold_left_app. cbn [fold_left].
    set (b := fold_left (bird_step A) ops (Bird.init A x0 y0)) in *.
    cbv zeta in IH. destruct IH as (Hx & Ht & Hv & Hti & Hc & Hi).
    destruct o; cbn [bird_step].
    + unfold Bird.jump.
      cbn [Bird.x Bird.tick_count Bird.vel Bird.tilt Bird.img_count Bird.img].
      split; [exact Hx|]. split; [lia|]. split; [now right|].
      split; [exact Hti|]. split; [exact Hc|exact Hi].
    + destruct (move_keeps b) as (-> & -> & -> & _ & -> & ->).
      split; [exact Hx|]. split; [lia|]. split; [exact Hv|].
      split; [apply move_tilt, Hti|]. split; [exact Hc|exact Hi].
    + destruct (draw_keeps A b) as (-> & _ & -> & -> & -> & _).
      destruct (draw_frame A b Hc Hi) as [Hc' Hi'].
      split; [exact Hx|]. split; [exact Ht|]. split; [exact Hv|].
      split; [exact Hti|]. split; [exact Hc'|exact Hi'].
Qed.

Lemma raw_displacement_jump (t : Z) :
  (-10.5 * inject_Z t + 1.5 * inject_Z (t ^ 2) == (3 * t * t - 21 * t) # 2)%Q.
Proof.
  rewrite Z.pow_2_r. unfold Qeq, Qplus, Qmult, inject_Z.
  cbn [Qnum Qden]. rewrite !Pos2Z.inj_mul. ring.
Qed.

Lemma raw_displacement_rest (t : Z) :
  (0 * inject_Z t + 1.5 * inject_Z (t ^ 2) == (3 * t * t) # 2)%Q.
Proof.
  rewrite Z.pow_2_r. unfold Qeq, Qplus, Qmult, inject_Z.
  cbn [Qnum Qden]. rewrite !Pos2Z.inj_mul. ring.
Qed.

Lemma clamp_bounds (d lo : Q) :
  (lo <= d)%Q -> (lo <= 0)%Q ->
  (lo - 2 <=
   (let d := if Qle_bool 16 d then 16%Q else d in
    if Qltb d 0 then d - 2 else d) <= 16)%Q.
Proof.
  intros Hd Hlo. cbv zeta. destruct (Qle_bool 16 d) eqn:E.
  - change (Qltb 16 0) with false. cbv iota. lra.
  - assert (H : (d < 16)%Q).
    { apply Qnot_le_lt. intro L. apply Qle_bool_iff in L. congruence. }
    destruct (Qltb d 0); lra.
Qed.

Lemma displacement_after_jump (tc : Z) :
  (-20 <= Bird.displacement (-10.5) tc <= 16)%Q.
Proof.
  unfold Bird.displacement.
  apply (clamp_bounds _ (-18)); [|lra].
  rewrite raw_displacement_jump. unfold Qle. cbn [Qnum Qden].
  assert (Hc : tc + 1 - 3 <= 0 \/ tc + 1 - 4 >= 0) by lia.
  assert ((tc + 1 - 3) * (tc + 1 - 4) >= 0) by (destruct Hc; nia). nia.
Qed.

Lemma displacement_at_rest (tc : Z) :
  (0 <= Bird.displacement 0 tc <= 16)%Q.
Proof.
  unfold Bird.displacement. cbv zeta.
  assert (Hd : (0 <= 0 * inject_Z (tc + 1) + 1.5 * inject_Z ((tc + 1) ^ 2))%Q).
  { rewrite raw_displacement_rest. unfold Qle. cbn [Qnum Qden]. nia. }
  set (d := (0 * inject_Z (tc + 1) + 1.5 * inject_Z ((tc + 1) ^ 2))%Q) in *.
  destruct (Qle_bool 16 d) eqn:E.
  - change (Qltb 16 0) with false. cbv iota. lra.
  - assert (H : (d < 16)%Q).
    { apply Qnot_le_lt. intro L. apply Qle_bool_iff in L. congruence. }
    destruct (Qltb d 0) eqn:E0; [apply Qltb_lt in E0; lra|lra].
Qed.

(** X2.  Whatever a bird has gone through since it was created, one call
    of [move] takes it at most 20 up and at most 16 down. *)
Theorem step_bounds (A : Assets) (x0 y0 : Z) (ops : list BirdOp) :
  let b := bird_after A x0 y0 ops in
  (-20 <= Bird.y (Bird.move b) - Bird.y b <= 16)%Q.
Proof.
  intro b. rewrite move_displacement.
  destruct (bird_after_invariant A x0 y0 ops) as (_ & _ & Hv & _).
  fold b in Hv. destruct Hv as [-> | ->].
  - pose proof (displacement_at_rest (Bird.tick_count b)). lra.
  - apply displacement_after_jump.
Qed.

Lemma iter_move_y : forall n b,
  (Bird.y (Nat.iter n Bird.move b) ==
   Bird.y b + sum_displacement (Bird.vel b) (Bird.tick_count b) n)%Q.
Proof.
  induction n as [|n IH]; intro b.
  - cbn. ring.
  - rewrite Nat.iter_succ_r, IH. cbn [sum_displacement].
    unfold Bird.move at 1 2 3. cbn [Bird.y Bird.vel Bird.tick_count]. ring.
Qed.

Lemma sum_displacement_split v : forall n m tc,
  (sum_displacement v tc (n + m) ==
   sum_displacement v tc n + sum_displacement v (tc + Z.of_nat n) m)%Q.
Proof.
  induction n as [|n IH]; intros m tc.
  - cbn [Nat.add sum_displacement Z.of_nat]. rewrite Z.add_0_r. ring.
  - cbn [Nat.add sum_displacement]. rewrite IH.
    replace (tc + 1 + Z.of_nat n) with (tc + Z.of_nat (S n)) by lia. ring.
Qed.

Lemma displacement_falling (tc : Z) :
  6 <= tc -> (0 <= Bird.displacement (-10.5) tc)%Q.
Proof.
  intro H. unfold Bird.displacement. cbv zeta.
  assert (Hd : (0 <= -10.5 * inject_Z (tc + 1)
                     + 1.5 * inject_Z ((tc + 1) ^ 2))%Q).
  { rewrite raw_displacement_jump. unfold Qle. cbn [Qnum Qden]. nia. }
  set (d := (-10.5 * inject_Z (tc + 1) + 1.5 * inject_Z ((tc + 1) ^ 2))%Q)
    in *.
  destruct (Qle_bool 16 d).
  - change (Qltb 16 0) with false. cbv iota. lra.
  - destruct (Qltb d 0) eqn:E0; [apply Qltb_lt in E0; lra|lra].
Qed.

Lemma sum_displacement_falling : forall n tc,
  6 <= tc -> (0 <= sum_displacement (-10.5) tc n)%Q.
Proof.
  induction n as [|n IH]; intros tc H; cbn [sum_displacement]; [lra|].
  pose proof (displacement_falling tc H).
  pose proof (IH (tc + 1) ltac:(lia)). lra.
Qed.

Lemma sum_displacement_rise (n : nat) :
  (-96 <= sum_displacement (-10.5) 0 n)%Q.
Proof.
  destruct (Nat.le_gt_cases 6 n) as [H|H].
  - replace n with (6 + (n - 6))%nat by lia.
    rewrite sum_displacement_split.
    pose proof (sum_displacement_falling (n - 6) (0 + Z.of_nat 6)
                  ltac:(cbn; lia)).
    assert (E : (sum_displacement (-10.5) 0 6 == -96)%Q) by reflexivity.
    rewrite E. lra.
  - do 6 (destruct n as [|n]; [apply Qle_bool_imp_le; reflexivity|]). lia.
Qed.

(** X3.  A jump carries a bird 11 up with the next call of [move] and 96 up
    with the next six together; whatever the number of moves that follow
    the jump, the bird is never more than 96 above the point it jumped
    from. *)
Theorem jump_apex (b : Bird.t) (n : nat) :
  (Bird.y b - 96 <= Bird.y (Nat.iter n Bird.move (Bird.jump b)))%Q /\
  (Bird.y (Nat.iter 1 Bird.move (Bird.jump b)) == Bird.y b - 11)%Q /\
  (Bird.y (Nat.iter 6 Bird.move (Bird.jump b)) == Bird.y b - 96)%Q.
Proof.
  rewrite !iter_move_y.
  change (Bird.vel (Bird.jump b)) with (-10.5)%Q.
  change (Bird.tick_count (Bird.jump b)) with 0.
  change (Bird.y (Bird.jump b)) with (Bird.y b).
  pose proof (sum_displacement_rise n).
  assert (E1 : (sum_displacement (-10.5) 0 1 == -11)%Q) by reflexivity.
  assert (E6 : (sum_displacement (-10.5) 0 6 == -96)%Q) by reflexivity.
  rewrite E1, E6. repeat split; lra.
Qed.

(** X4.  Through every sequence of jumps, moves and draws a bird keeps its
    column; its velocity is 0 until the first jump and -10.5 from then on;
    its tilt stays above -110 and at most 25; its animation counter stays
    in 0..20 and its image is one of the three frames. *)
Theorem bird_state (A : Assets) (x0 y0 : Z) (ops : list BirdOp) :
  let b := bird_after A x0 y0 ops in
  Bird.x b = x0 /\
  0 <= Bird.tick_count b /\
  Bird.vel b = (if existsb is_jump ops then (-10.5)%Q else 0%Q) /\
  -110 < Bird.tilt b <= 25 /\
  0 <= Bird.img_count b <= 20 /\
  (Bird.img b = BIRD_IMG0 A \/ Bird.img b = BIRD_IMG1 A \/
   Bird.img b = BIRD_IMG2 A).
Proof.
  intro b.
  destruct (bird_after_invariant A x0 y0 ops) as (Hx & Ht & _ & Hti & Hc & Hi).
  fold b in Hx, Ht, Hti, Hc, Hi.
  split; [exact Hx|]. split; [exact Ht|].
  split; [|split; [exact Hti|split; [exact Hc|exact Hi]]].
  subst b. unfold bird_after. clear.
  induction ops as [|o ops IH] using rev_ind; [reflexivity|].
  rewrite fold_left_app, existsb_app. cbn [fold_left existsb].
  destruct o; cbn [bird_step is_jump].
  - now rewrite orb_true_r.
  - rewrite (proj1 (proj2 (proj2 (move_keeps _)))), IH.
    now rewrite !orb_false_r.
  - rewrite (proj1 (proj2 (proj2 (proj2 (proj2 (draw_keeps A _)))))), IH.
    now rewrite !orb_false_r.
Qed.

(** ** Collision, pixel by pixel *)

Lemma zrange_In (n v : Z) : In v (zrange n) <-> 0 <= v < n.
Proof.
  unfold zrange. rewrite in_map_iff. split.
  - intros (k & <- & Hk). apply in_seq in Hk. lia.
  - intro H. exists (Z.to_nat v). split; [lia|]. apply in_seq. lia.
Qed.

Lemma get_at_inside m px py :
  get_at m px py = true -> 0 <= px < m_width m /\ 0 <= py < m_height m.
Proof.
  unfold get_at, in_range. intro H.
  repeat (apply andb_true_iff in H as [H ?]).
  repeat match goal with
         | H : (_ <=? _) = true |- _ => apply Z.leb_le in H
         | H : (_ <? _) = true |- _ => apply Z.ltb_lt in H
         end. lia.
Qed.

Lemma overlap_truthy m other ox oy :
  truthy (overlap m other (ox, oy)) = true <->
  exists px py,
    get_at m px py = true /\ get_at other (px - ox) (py - oy) = true.
Proof.
  unfold overlap.
  destruct (find _ _) as [[px py]|] eqn:E; cbn [truthy]; split.
  - intros _. apply find_some in E as [_ E]. cbn [fst snd] in E.
    apply andb_true_iff in E. now exists px, py.
  - reflexivity.
  - discriminate.
  - intros (px & py & H1 & H2). exfalso.
    pose proof (find_none _ _ E (px, py)) as Hn. cbn [fst snd] in Hn.
    rewrite H1, H2 in Hn. cbn in Hn.
    assert (false = true); [|discriminate]. symmetry. apply Hn.
    destruct (get_at_inside _ _ _ H1).
    apply in_prod; now apply zrange_In.
Qed.

Lemma shown_inside s left top X Y :
  shown s left top X Y = true ->
  left <= X < left + get_width s /\ top <= Y < top + get_height s.
Proof.
  unfold shown. intro H. apply get_at_inside in H.
  cbn [mask_from_surface m_width m_height] in H. lia.
Qed.

Lemma if_bool (c : bool) : (if c then true else false) = c.
Proof. now destruct c. Qed.

Lemma collide_overlaps (A : Assets) (p : Pipe.t) (b : Bird.t) :
  Pipe.collide A p b = true ->
  exists X Y,
    shown (Bird.img b) (Bird.x b) (py_round (Bird.y b)) X Y = true /\
    (shown (Pipe.PIPE_TOP A) (Pipe.x p) (Pipe.top p) X Y = true \/
     shown (Pipe.PIPE_BOTTOM A) (Pipe.x p) (Pipe.bottom p) X Y = true).
Proof.
  unfold Pipe.collide, Bird.get_mask, shown.
  set (ry := py_round (Bird.y b)).
  rewrite if_bool, orb_true_iff, !overlap_truthy.
  intros [(px & py & H1 & H2)|(px & py & H1 & H2)];
    exists (Bird.x b + px), (ry + py);
    (split;
     [replace (Bird.x b + px - Bird.x b) with px by lia;
      replace (ry + py - ry) with py by lia; exact H1|]);
    [left|right];
    match goal with
    | |- get_at _ ?u ?v = true =>
        match type of H2 with
        | get_at _ ?u' ?v' = true =>
            replace u with u' by lia; replace v with v' by lia; exact H2
        end
    end.
Qed.

(** X5.  [collide] is pixel-exact: it answers true exactly when some screen
    point carries an opaque pixel of the bird's current image, drawn at
    ([x], [round(y)]), and an opaque pixel of the upper pipe image, drawn
    at ([x], [top]), or of the lower one, drawn at ([x], [bottom]). *)
Theorem collide_pixels (A : Assets) (p : Pipe.t) (b : Bird.t) :
  Pipe.collide A p b = true <->
  exists X Y,
    shown (Bird.img b) (Bird.x b) (py_round (Bird.y b)) X Y = true /\
    (shown (Pipe.PIPE_TOP A) (Pipe.x p) (Pipe.top p) X Y = true \/
     shown (Pipe.PIPE_BOTTOM A) (Pipe.x p) (Pipe.bottom p) X Y = true).
Proof.
  split; [apply collide_overlaps|].
  unfold Pipe.collide, Bird.get_mask, shown.
  set (ry := py_round (Bird.y b)).
  rewrite if_bool, orb_true_iff, !overlap_truthy.
  intros (X & Y & H1 & [H2|H2]); [left|right];
    exists (X - Bird.x b), (Y - ry); (split; [exact H1|]);
    match goal with
    | |- get_at _ ?u ?v = true =>
        match type of H2 with
        | get_at _ ?u' ?v' = true =>
            replace u with u' by lia; replace v with v' by lia; exact H2
        end
    end.
Qed.

(** X6.  A bird whose image lies entirely to the left or entirely to the
    right of the pipe does not collide with it, wherever it flies. *)
Theorem clear_of_pipe (A : Assets) (p : Pipe.t) (b : Bird.t) :
  Bird.x b + get_width (Bird.img b) <= Pipe.x p \/
  Pipe.x p + get_width (PIPE_IMG A) <= Bird.x b ->
  Pipe.collide A p b = false.
Proof.
  intro H. destruct (Pipe.collide A p b) eqn:E; [|reflexivity].
  apply collide_overlaps in E as (X & Y & Hb & Hp).
  apply shown_inside in Hb.
  destruct Hp as [Hp|Hp]; apply shown_inside in Hp;
    unfold Pipe.PIPE_TOP, Pipe.PIPE_BOTTOM, flip_vertical in Hp;
    cbn [get_width get_height] in Hp; lia.
Qed.

Lemma clear_of_pipe_witness :
  let b := Bird.init sample_assets 230 350 in
  let p := sample_pipe 300 400 false in
  (Bird.x b + get_width (Bird.img b) <= Pipe.x p \/
   Pipe.x p + get_width (PIPE_IMG sample_assets) <= Bird.x b) /\
  Pipe.collide sample_assets p b = false.
Proof.
  intros b p.
  assert (H : Bird.x b + get_width (Bird.img b) <= Pipe.x p \/
              Pipe.x p + get_width (PIPE_IMG sample_assets) <= Bird.x b)
    by (left; cbn; lia).
  split; [exact H|]. exact (clear_of_pipe sample_assets p b H).
Defined.

Lemma pipe_made A x0 r n :
  let p := Nat.iter n Pipe.move (fst (Pipe.init A x0 r)) in
  Pipe.top p = Pipe.height p - get_height (PIPE_IMG A) /\
  Pipe.bottom p = Pipe.height p + Pipe.GAP.
Proof.
  intro p. subst p.
  destruct (iter_pipe_move n (fst (Pipe.init A x0 r)))
    as (_ & Hh & Ht & Hb & _).
  rewrite Hh, Ht, Hb. unfold Pipe.init.
  destruct (randrange 50 450 r) as [h r']. now cbn.
Qed.

(** X7.  A bird whose image rows, from [round(y)] on, all lie between the
    [height] and the [bottom] of a pipe made by [Pipe(x0)] passes through
    the gap: it does not collide, whatever its column and its frame. *)
Theorem through_the_gap
    (A : Assets) (x0 : Z) (r : Rng) (n : nat) (b : Bird.t) :
  let p := Nat.iter n Pipe.move (fst (Pipe.init A x0 r)) in
  Pipe.height p <= py_round (Bird.y b) ->
  py_round (Bird.y b) + get_height (Bird.img b) <= Pipe.bottom p ->
  Pipe.collide A p b = false.
Proof.
  intros p Hlo Hhi.
  assert (Ht : Pipe.top p = Pipe.height p - get_height (PIPE_IMG A))
    by apply (pipe_made A x0 r n).
  destruct (Pipe.collide A p b) eqn:E; [|reflexivity].
  apply collide_overlaps in E as (X & Y & Hb & Hp).
  apply shown_inside in Hb.
  destruct Hp as [Hp|Hp]; apply shown_inside in Hp;
    unfold Pipe.PIPE_TOP, Pipe.PIPE_BOTTOM, flip_vertical in Hp;
    cbn [get_width get_height] in Hp; lia.
Qed.

Lemma through_the_gap_witness :
  let b := Bird.init sample_assets 230 200 in
  let p := Nat.iter 74 Pipe.move
             (fst (Pipe.init sample_assets 600 sample_rng)) in
  Pipe.height p <= py_round (Bird.y b) /\
  py_round (Bird.y b) + get_height (Bird.img b) <= Pipe.bottom p /\
  Pipe.collide sample_assets p b = false.
Proof.
  intros b p.
  assert (H1 : Pipe.height p <= py_round (Bird.y b))
    by (apply Z.leb_le; vm_compute; reflexivity).
  assert (H2 : py_round (Bird.y b) + get_height (Bird.img b) <= Pipe.bottom p)
    by (apply Z.leb_le; vm_compute; reflexivity).
  split; [exact H1|]. split; [exact H2|].
  exact (through_the_gap sample_assets 600 sample_rng 74 b H1 H2).
Defined.

(** ** The pipe stream *)

Lemma pipe_eqb_refl p : Pipe.eqb p p = true.
Proof.
  unfold Pipe.eqb. rewrite !Z.eqb_refl. now destruct (Pipe.passed p).
Qed.

Lemma remove_first_middle A q : forall pre rest,
  Forall (fun p => off_screen A p = false) pre ->
  off_screen A q = true ->
  remove_first q (pre ++ q :: rest) = pre ++ rest.
Proof.
  induction pre as [|x pre IH]; intros rest Hpre Hq; cbn [app remove_first].
  - now rewrite pipe_eqb_refl.
  - inversion Hpre as [|? ? Hx Hpre']; subst.
    rewrite (eqb_off_screen A q x Hq Hx). now rewrite IH.
Qed.

(** Removing the pipes collected in [rem] leaves exactly the pipes that are
    on the screen, in their order. *)
Lemma retire_filter A : forall ps pre extra,
  Forall (fun p => off_screen A p = false) pre ->
  retire (filter (off_screen A) ps) (pre ++ ps ++ extra) =
  pre ++ filter (on_screen A) ps ++ extra.
Proof.
  unfold retire, on_screen.
  induction ps as [|q ps IH]; intros pre extra Hpre; [reflexivity|].
  cbn [filter app]. destruct (off_screen A q) eqn:Eq; cbn [negb fold_left].
  - rewrite (remove_first_middle A) by assumption. now apply IH.
  - replace (pre ++ q :: ps ++ extra) with ((pre ++ [q]) ++ ps ++ extra)
      by (now rewrite <- app_assoc).
    rewrite IH.
    + now rewrite <- app_assoc.
    + apply Forall_app. split; [exact Hpre|]. now constructor.
Qed.

Lemma scanned_xs A (ps ps' : list Pipe.t) (c c' : list Agent) :
  Forall2 (fun p p' => exists ci,
               subseq ci c /\ subseq c' ci /\ p' = scanned A p ci) ps ps' ->
  map Pipe.x ps' = map (fun p => Pipe.x p - Pipe.VEL) ps.
Proof.
  induction 1 as [|p p' ps ps' (ci & _ & _ & ->) F IH]; [reflexivity|].
  cbn [map]. now rewrite scanned_x, IH.
Qed.

(** X8.  After a tick the stream holds the pipes it held before, each 5
    further left, without those whose right edge has left the screen, in
    their order, followed by the new pipe if one was spawned. *)
Theorem stream_after_tick (A : Assets) (s s' : State) :
  tick A s = Running s' ->
  exists c1 fit1 log ps1 c2 fit2 add rem,
    think (pipes s) (pipe_ind A (cohort s) (pipes s)) (cohort s) (fitness s)
      = Some (c1, fit1, log) /\
    pipes_loop A (pipes s) c1 fit1 false [] = (ps1, c2, fit2, add, rem) /\
    map Pipe.x ps1 = map (fun p => Pipe.x p - Pipe.VEL) (pipes s) /\
    rem = filter (off_screen A) ps1 /\
    pipes s' =
      filter (on_screen A) ps1 ++
      (if add then [fst (Pipe.init A 600 (rng s))] else []).
Proof.
  intro Ht.
  destruct (tick_running_inv A s s' Ht) as (Hc & c1 & fit1 & log & Hth).
  destruct (pipes_loop_spec A (pipes s) c1 fit1 false [])
    as (ps1 & c2 & fit2 & E & _ & _ & F & _).
  cbn [orb app] in E.
  rewrite (tick_phases A s _ _ _ _ _ _ _ _ Hc Hth E) in Ht.
  injection Ht as <-. cbn [pipes].
  exists c1, fit1, log, ps1, c2, fit2. do 2 eexists.
  split; [exact Hth|]. split; [exact E|].
  split; [exact (scanned_xs A _ _ _ _ F)|]. split; [reflexivity|].
  unfold spawned.
  pose proof (retire_filter A ps1 []) as R. cbn [app] in R.
  destruct (existsb _ _).
  - apply R. constructor.
  - specialize (R [] (Forall_nil _)). rewrite !app_nil_r in *. exact R.
Qed.

Lemma stream_after_tick_witness :
  tick sample_assets passing_state
    = Running (run sample_assets 1 passing_state) /\
  map Pipe.x (pipes (run sample_assets 1 passing_state)) = [225; 600].
Proof.
  assert (H : tick sample_assets passing_state
              = Running (run sample_assets 1 passing_state))
    by (vm_compute; reflexivity).
  split; [exact H|].
  destruct (stream_after_tick sample_assets _ _ H)
    as (c1 & fit1 & log & ps1 & c2 & fit2 & add & rem & _ & _ & _ & _ & _).
  vm_compute. reflexivity.
Defined.

(** X9.  What one pass through the loop body comes to: the loop ends
    exactly when no agent is left; the lookup [pipes[pipe_ind]] raises
    exactly when agents are left and the pipe list is empty; otherwise the
    pass goes through. *)
Theorem tick_outcome (A : Assets) (s : State) :
  (tick A s = Terminated s <-> cohort s = []) /\
  (forall s', tick A s = Terminated s' -> s' = s) /\
  (tick A s = IndexError <-> cohort s <> [] /\ pipes s = []) /\
  ((exists s', tick A s = Running s') <-> cohort s <> [] /\ pipes s <> []).
Proof.
  assert (Hrun : cohort s <> [] -> pipes s <> [] ->
                 exists s', tick A s = Running s').
  { intros Hc Hp.
    destruct (think_runs (pipes s) _ (cohort s) (fitness s)
                (pipe_ind_lt A (cohort s) (pipes s) Hp))
      as (c1 & fit1 & log & Hth).
    destruct (pipes_loop A (pipes s) c1 fit1 false [])
      as [[[[ps1 c2] fit2] add] rem] eqn:E.
    eexists. exact (tick_phases A s _ _ _ _ _ _ _ _ Hc Hth E). }
  assert (Herr : cohort s <> [] -> pipes s = [] -> tick A s = IndexError).
  { intros Hc Hp. unfold tick. destruct (cohort s) as [|a c]; [congruence|].
    rewrite Hp. reflexivity. }
  assert (Hend : cohort s = [] -> tick A s = Terminated s).
  { intro Hc. unfold tick. now rewrite Hc. }
  destruct (cohort s) as [|a c] eqn:Ec.
  - rewrite (Hend eq_refl).
    split; [tauto|]. split; [now intros s' [= <-]|].
    split; [split; [discriminate|intros [H _]; congruence]|].
    split; [intros [s' H]; discriminate|intros [H _]; congruence].
  - assert (Hc : a :: c <> []) by discriminate.
    destruct (pipes s) as [|p ps] eqn:Ep.
    + rewrite (Herr Hc eq_refl).
      split; [split; [discriminate|intro H; discriminate]|].
      split; [discriminate|].
      split; [tauto|].
      split; [intros [s' H]; discriminate|intros [_ H]; congruence].
    + destruct (Hrun Hc ltac:(discriminate)) as [s' Hs']. rewrite Hs'.
      split; [split; [discriminate|intro H; discriminate]|].
      split; [discriminate|].
      split; [split; [discriminate|intros [_ H]; discriminate]|].
      split; [intros _; split; discriminate|intros _; now exists s'].
Qed.

(** ** The cohort *)

Lemma tick_gids_subseq A s s' :
  tick A s = Running s' -> subseq (gids (cohort s')) (gids (cohort s)).
Proof.
  intro Ht.
  destruct (tick_running_inv A s s' Ht) as (Hc & c1 & fit1 & log & Hth).
  destruct (think_cohort _ _ _ _ _ _ _ Hth) as (Hg & _ & _).
  destruct (pipes_loop_spec A (pipes s) c1 fit1 false [])
    as (ps1 & c2 & fit2 & E & Hsub & _ & _ & _).
  cbn [orb app] in E.
  rewrite (tick_phases A s _ _ _ _ _ _ _ _ Hc Hth E) in Ht.
  injection Ht as <-. cbn [cohort].
  rewrite draw_window_gids, bounds_scan_sweep, <- Hg. cbn [fst].
  apply subseq_map. eapply subseq_trans; [|exact Hsub].
  apply (sweep_subseq bounds_body).
Qed.

(** X10.  The loop never adds an agent, never brings one back and never
    changes the order: the genomes of the cohort after any number of
    iterations are a subsequence of those before, so a genome that is not
    in the cohort is not in it later either. *)
Theorem cohort_only_shrinks (A : Assets) (n : nat) (s : State) :
  subseq (gids (cohort (run A n s))) (gids (cohort s)) /\
  (length (cohort (run A n s)) <= length (cohort s))%nat /\
  (forall g, alive g (cohort s) = false ->
             alive g (cohort (run A n s)) = false).
Proof.
  assert (H : subseq (gids (cohort (run A n s))) (gids (cohort s))).
  { revert s. induction n as [|n IH]; intro s; [apply subseq_refl|].
    cbn [run]. destruct (tick A s) as [s'| |] eqn:Ht;
      try apply subseq_refl.
    eapply subseq_trans; [apply IH|]. eapply tick_gids_subseq, Ht. }
  split; [exact H|]. split.
  - apply subseq_length in H. unfold gids in H.
    now rewrite !length_map in H.
  - intros g Hg. destruct (alive g (cohort (run A n s))) eqn:E;
      [|reflexivity].
    apply alive_In in E. apply (subseq_In _ _ _ H) in E.
    apply alive_In in E. congruence.
Qed.

(** ** What the removing scans miss *)

Lemma sweep_all_dying {L} (body : L -> Agent -> bool * L)
    (body_stable : forall st a a',
        fst (body (snd (body st a)) a') = fst (body st a')) :
  forall c st fit,
    (forall a, In a c -> fst (body st a) = true) ->
    length (snd (fst (sweep body st c fit))) = (length c / 2)%nat.
Proof.
  intro c. induction c as [| a | a b r IHr _] using list_pair_ind;
    intros st fit H.
  - reflexivity.
  - rewrite sweep_cons. specialize (H a (or_introl eq_refl)).
    destruct (body st a) as [d st']. cbn [fst] in H. subst d. reflexivity.
  - rewrite sweep_cons. pose proof (H a (or_introl eq_refl)) as Ha.
    pose proof (body_stable st a) as Hs.
    destruct (body st a) as [d st']. cbn [fst snd] in Ha, Hs. subst d.
    assert (Hr : forall x, In x r -> fst (body st' x) = true).
    { intros x Hx. rewrite Hs. apply H. right. now right. }
    specialize (IHr st' (fit_sub fit (ge a) 1) Hr).
    destruct (sweep body st' r _) as [[st'' c'] fit']. cbn [fst snd] in *.
    cbn [length]. rewrite IHr.
    change (S (S (length r))) with (1 * 2 + length r)%nat.
    rewrite Nat.div_add_l by lia. lia.
Qed.

(** X11.  When every agent of the cohort is out of bounds in the same tick,
    the bounds scan removes only every other one: of [n] agents, [n / 2]
    (rounded down) are still in the cohort after the scan.  The same holds
    for the collision scan of a pipe that every agent has hit. *)
Theorem all_dying_half_stay
    (A : Assets) (pipe : Pipe.t) (add_pipe : bool)
    (c : list Agent) (fit : Store) :
  (Forall (fun a => out_of_bounds (bird a) = true) c ->
   length (fst (bounds_scan c fit)) = (length c / 2)%nat) /\
  (Forall (fun a => Pipe.collide A (Pipe.move pipe) (bird a) = true) c ->
   let '(_, _, c', _) := pipe_step A pipe add_pipe c fit in
   length c' = (length c / 2)%nat).
Proof.
  split; intro H.
  - rewrite bounds_scan_sweep. cbn [fst].
    apply (sweep_all_dying bounds_body bounds_body_stable).
    intros a Ha. exact (proj1 (Forall_forall _ _) H a Ha).
  - rewrite pipe_step_sweep.
    pose proof (sweep_all_dying (collide_body A) (collide_body_stable A) c
                  (Pipe.move pipe, add_pipe) fit) as Hs.
    destruct (sweep (collide_body A) _ c fit) as [[[p' add'] c'] fit'].
    cbn [fst snd] in Hs. apply Hs. intros a Ha.
    exact (proj1 (Forall_forall _ _) H a Ha).
Qed.

Lemma all_dying_half_stay_witness :
  let c := [sample_agent 1 always_jumps high_bird;
            sample_agent 2 always_jumps high_bird;
            sample_agent 3 always_jumps high_bird] in
  Forall (fun a => out_of_bounds (bird a) = true) c /\
  length (fst (bounds_scan c (fun _ => 0%float))) = 1%nat.
Proof.
  intro c.
  assert (H : Forall (fun a => out_of_bounds (bird a) = true) c)
    by (repeat constructor).
  split; [exact H|].
  exact (proj1 (all_dying_half_stay sample_assets (sample_pipe 600 100 false)
                  false c (fun _ => 0%float)) H).
Defined.

(** X12.  The collision scan of a pipe never removes an agent that does not
    touch the pipe, and, with one agent per genome, leaves its fitness as
    it was. *)
Theorem collision_scan_spares
    (A : Assets) (pipe : Pipe.t) (add_pipe : bool)
    (c : list Agent) (fit : Store) (a : Agent) :
  NoDup (gids c) ->
  In a c ->
  Pipe.collide A (Pipe.move pipe) (bird a) = false ->
  let '(_, _, c', fit') := pipe_step A pipe add_pipe c fit in
  In a c' /\ fit' (ge a) = fit (ge a).
Proof.
  intros N Hin Ha. rewrite pipe_step_sweep.
  pose proof (sweep_keeps (collide_body A) (collide_body_stable A) a c
                (Pipe.move pipe, add_pipe) fit Ha Hin) as Hk.
  pose proof (sweep_account_alive (collide_body A) (ge a) c
                (Pipe.move pipe, add_pipe) fit N) as Hacc.
  destruct (sweep (collide_body A) _ c fit) as [[[p' add'] c'] fit'].
  cbn [fst snd] in *. split; [exact Hk|].
  assert (H1 : alive (ge a) c = true) by (apply alive_In; now apply in_map).
  assert (H2 : alive (ge a) c' = true) by (apply alive_In; now apply in_map).
  rewrite H1, H2 in Hacc. exact Hacc.
Qed.

Lemma collision_scan_spares_witness :
  let a := sample_agent 1 never_jumps (Bird.init sample_assets 230 350) in
  let pipe := sample_pipe 230 250 false in
  NoDup (gids [a]) /\ In a [a] /\
  Pipe.collide sample_assets (Pipe.move pipe) (bird a) = false /\
  let '(_, _, c', fit') := pipe_step sample_assets pipe false [a]
                                     (fun _ => 0.1%float) in
  In a c' /\ fit' 1%nat = 0.1%float.
Proof.
  intros a pipe.
  assert (N : NoDup (gids [a])) by (repeat constructor; intros []).
  assert (Hin : In a [a]) by now left.
  assert (Hc : Pipe.collide sample_assets (Pipe.move pipe) (bird a) = false)
    by (vm_compute; reflexivity).
  split; [exact N|]. split; [exact Hin|]. split; [exact Hc|].
  exact (collision_scan_spares sample_assets pipe false [a]
           (fun _ => 0.1%float) a N Hin Hc).
Defined.

(** ** At most two pipes *)

Lemma tick_stream A s s' :
  tick A s = Running s' ->
  exists c1 ps1 c2,
    (forall a1, In a1 c1 ->
       exists a, In a (cohort s) /\ Bird.x (bird a1) = Bird.x (bird a)) /\
    Forall2 (fun p p' => exists ci,
                 subseq ci c1 /\ subseq c2 ci /\ p' = scanned A p ci)
            (pipes s) ps1 /\
    (c2 = [] -> cohort s' = []) /\
    pipes s' =
      filter (on_screen A) ps1 ++
      (if existsb (fun pp => flips (fst pp) (snd pp)) (combine (pipes s) ps1)
       then [fst (Pipe.init A 600 (rng s))] else []).
Proof.
  intro Ht.
  destruct (tick_running_inv A s s' Ht) as (Hc & c1 & fit1 & log & Hth).
  destruct (think_cohort _ _ _ _ _ _ _ Hth) as (_ & Hc1 & _).
  destruct (pipes_loop_spec A (pipes s) c1 fit1 false [])
    as (ps1 & c2 & fit2 & E & _ & _ & F & _).
  cbn [orb app] in E.
  rewrite (tick_phases A s _ _ _ _ _ _ _ _ Hc Hth E) in Ht.
  injection Ht as <-. cbn [pipes cohort].
  exists c1, ps1, c2. split; [|split; [exact F|split]].
  - intros a1 H1. destruct (Hc1 a1 H1) as (a & Ha & _ & Hx). eauto.
  - intros ->. rewrite bounds_scan_sweep. reflexivity.
  - unfold spawned.
    pose proof (retire_filter A ps1 []) as R. cbn [app] in R.
    destruct (existsb _ _).
    + apply R. constructor.
    + specialize (R [] (Forall_nil _)). rewrite !app_nil_r in *. exact R.
Qed.

Lemma on_screen_iff A q :
  on_screen A q = true <-> 0 <= Pipe.x q + get_width (PIPE_IMG A).
Proof.
  unfold on_screen, off_screen.
  change (get_width (Pipe.PIPE_TOP A)) with (get_width (PIPE_IMG A)).
  rewrite negb_true_iff. apply Z.ltb_ge.
Qed.

Lemma on_screen_not A q :
  on_screen A q = false <-> Pipe.x q + get_width (PIPE_IMG A) < 0.
Proof.
  unfold on_screen, off_screen.
  change (get_width (Pipe.PIPE_TOP A)) with (get_width (PIPE_IMG A)).
  rewrite negb_false_iff. apply Z.ltb_lt.
Qed.

(** What becomes of a pipe that was still to be passed. *)
Lemma scanned_cases A p ci c2 :
  Pipe.passed p = false ->
  (forall a, In a ci -> Bird.x (bird a) = 230) ->
  subseq c2 ci ->
  (Pipe.passed (scanned A p ci) = true /\
   flips p (scanned A p ci) = true /\ Pipe.x p - 5 < 230) \/
  (Pipe.passed (scanned A p ci) = false /\
   flips p (scanned A p ci) = false /\ (Pipe.x p - 5 < 230 -> c2 = [])).
Proof.
  intros Hp Hx Hsub. unfold flips. rewrite Hp. cbn [negb andb].
  destruct (Pipe.passed (scanned A p ci)) eqn:E; [left|right].
  - split; [reflexivity|]. split; [reflexivity|].
    destruct (scanned_sound A p ci Hp E) as (a & Ha & Hlt).
    rewrite (Hx a Ha) in Hlt. exact Hlt.
  - split; [reflexivity|]. split; [reflexivity|]. intro Hlt.
    destruct ci as [|a r]; [now inversion Hsub|].
    rewrite scanned_first in E; [discriminate|].
    rewrite (Hx a (or_introl eq_refl)). exact Hlt.
Qed.

Lemma tick_stream_shape A s s' :
  0 <= get_width (PIPE_IMG A) <= 140 ->
  (forall a, In a (cohort s) -> Bird.x (bird a) = 230) ->
  stream_shape (pipes s) ->
  tick A s = Running s' ->
  stream_ok s'.
Proof.
  intros Hw Hx Hshape Ht.
  destruct (tick_stream A s s' Ht) as (c1 & ps1 & c2 & Hx1 & F & Hempty & Hp).
  assert (Hx1' : forall ci, subseq ci c1 ->
                 forall a, In a ci -> Bird.x (bird a) = 230).
  { intros ci Hci a Ha. destruct (Hx1 a (subseq_In _ _ _ Hci Ha))
      as (a0 & Ha0 & ->). auto. }
  destruct (init_fresh A 600 (rng s)) as [Hnx Hnp].
  set (new := fst (Pipe.init A 600 (rng s))) in *.
  unfold stream_ok.
  destruct Hshape as [(p & Eps & Hpf & Hpx)
                     |(p0 & p1 & Eps & Hp0 & Hp1 & Hx1p & Hd)];
    rewrite Eps in F, Hp.
  - inversion F as [|? p' ? ps' (ci & Hci & Hc2 & Ep') F']; subst.
    inversion F'; subst. clear F F'.
    cbn [combine existsb fst snd filter app] in Hp.
    pose proof (scanned_x A p ci) as Hxs. unfold Pipe.VEL in Hxs.
    assert (Hon : on_screen A (scanned A p ci) = true)
      by (apply on_screen_iff; lia).
    rewrite Hon in Hp.
    destruct (scanned_cases A p ci c2 Hpf (Hx1' ci Hci) Hc2)
      as [(Hf & Hfl & Hlt)|(Hf & Hfl & Hlt)];
      rewrite Hfl in Hp; cbn [orb app] in Hp.
    + right. right. exists (scanned A p ci), new.
      repeat split; try assumption; lia.
    + destruct (Z_lt_le_dec (Pipe.x p - 5) 230) as [Hl|Hl].
      * left. split; [apply Hempty, Hlt, Hl|]. rewrite Hp. cbn. lia.
      * right. left. exists (scanned A p ci).
        repeat split; try assumption; lia.
  - inversion F as [|? p0' ? ps' (ci0 & Hci0 & Hc20 & Ep0') F']; subst.
    inversion F' as [|? p1' ? ps'' (ci & Hci & Hc2 & Ep1') F'']; subst.
    inversion F''; subst. clear F F' F''.
    cbn [combine existsb fst snd filter app] in Hp.
    pose proof (scanned_x A p0 ci0) as Hxs0. unfold Pipe.VEL in Hxs0.
    pose proof (scanned_x A p1 ci) as Hxs1. unfold Pipe.VEL in Hxs1.
    pose proof (scanned_keeps_flag A p0 ci0 Hp0) as Hk0.
    assert (Hfl0 : flips p0 (scanned A p0 ci0) = false)
      by (unfold flips; now rewrite Hp0).
    assert (Hon1 : on_screen A (scanned A p1 ci) = true)
      by (apply on_screen_iff; lia).
    rewrite Hfl0, Hon1 in Hp. cbn [orb] in Hp.
    destruct (scanned_cases A p1 ci c2 Hp1 (Hx1' ci Hci) Hc2)
      as [(Hf & Hfl & Hlt)|(Hf & Hfl & Hlt)];
      rewrite Hfl in Hp; cbn [orb app] in Hp.
    + assert (Hoff : on_screen A (scanned A p0 ci0) = false)
        by (apply on_screen_not; lia).
      rewrite Hoff in Hp. cbn [app] in Hp.
      right. right. exists (scanned A p1 ci), new.
      repeat split; try assumption; lia.
    + destruct (Z_lt_le_dec (Pipe.x p1 - 5) 230) as [Hl|Hl].
      * left. split; [apply Hempty, Hlt, Hl|]. rewrite Hp.
        destruct (on_screen A (scanned A p0 ci0)); cbn; lia.
      * right. destruct (on_screen A (scanned A p0 ci0)); rewrite Hp;
          cbn [app].
        -- right. exists (scanned A p0 ci0), (scanned A p1 ci).
           repeat split; try assumption; lia.
        -- left. exists (scanned A p1 ci).
           repeat split; try assumption; lia.
Qed.

Lemma run_stream_ok A : forall n s,
  0 <= get_width (PIPE_IMG A) <= 140 ->
  (forall a, In a (cohort s) -> Bird.x (bird a) = 230) ->
  stream_ok s ->
  stream_ok (run A n s).
Proof.
  induction n as [|n IH]; intros s Hw Hx Hs; [exact Hs|].
  cbn [run]. destruct (tick A s) as [s'| |] eqn:Ht; try exact Hs.
  apply IH; [exact Hw| |].
  - intros a' Hin.
    destruct (tick_cohort_from A s s' a' Ht Hin) as (a & Ha & _ & ->). auto.
  - destruct Hs as [[Hc _]|Hs].
    + unfold tick in Ht. rewrite Hc in Ht. discriminate.
    + eapply tick_stream_shape; eassumption.
Qed.

(** X13.  The remark at line 365 holds: with a pipe image at most 140 wide,
    the game never holds more than two pipes, however long it runs; and
    as long as an agent is left the stream is one pipe still to be passed,
    or a passed pipe followed by one still to be passed. *)
Theorem at_most_two_pipes
    (A : Assets) (genomes : list nat) (create : nat -> Net)
    (fit0 : Store) (r : Rng) (n : nat) :
  0 <= get_width (PIPE_IMG A) <= 140 ->
  let s := run A n (start A genomes create fit0 r) in
  (length (pipes s) <= 2)%nat /\
  (cohort s <> [] -> stream_shape (pipes s)).
Proof.
  intros Hw s.
  assert (H : stream_ok s).
  { apply run_stream_ok; [exact Hw|intro a; apply start_shared_x|].
    right. left. unfold start.
    destruct (init_fresh A 600 r) as [Hx Hp].
    destruct (Pipe.init A 600 r) as [p r']. cbn [pipes fst] in *.
    exists p. repeat split; [exact Hp|lia]. }
  destruct H as [[Hc Hl]|Hs].
  - split; [exact Hl|congruence].
  - split; [|intros _; exact Hs].
    destruct Hs as [(p & -> & _)|(p0 & p1 & -> & _)]; cbn; lia.
Qed.

Lemma at_most_two_pipes_witness :
  0 <= get_width (PIPE_IMG sample_assets) <= 140 /\
  (length (pipes (run sample_assets 500
                    (start sample_assets [1; 2; 3]%nat
                           (fun _ => always_jumps) (fun _ => 0%float)
                           sample_rng))) <= 2)%nat.
Proof.
  assert (Hw : 0 <= get_width (PIPE_IMG sample_assets) <= 140)
    by (cbn; lia).
  split; [exact Hw|].
  exact (proj1 (at_most_two_pipes sample_assets [1; 2; 3]%nat
                  (fun _ => always_jumps) (fun _ => 0%float) sample_rng 500 Hw)).
Defined.

Lemma tick_not_terminated A s s0 :
  cohort s <> [] -> tick A s <> Terminated s0.
Proof.
  intro Hc. unfold tick. destruct (cohort s) as [|a c]; [congruence|].
  destruct (think _ _ _ _) as [[[c1 fit1] log]|]; [|discriminate].
  destruct (pipes_loop _ _ _ _ _ _) as [[[[? ?] ?] ?] ?].
  destruct (spawn _ _ _ _ _ _ _) as [[[? ?] ?] ?].
  destruct (bounds_scan _ _). discriminate.
Qed.

(** X16.  From the state [eval_genomes] sets up, however long the game has
    run, the lookup [pipes[pipe_ind]] does not raise, and as long as an
    agent is left the next pass through the loop body goes through. *)
Theorem loop_progress
    (A : Assets) (genomes : list nat) (create : nat -> Net) (fit0 : Store)
    (r : Rng) (n : nat) :
  0 <= get_width (PIPE_IMG A) ->
  let s := run A n (start A genomes create fit0 r) in
  tick A s <> IndexError /\
  (cohort s <> [] -> exists s', tick A s = Running s').
Proof.
  intros Hw s.
  pose proof (run_never_raises A genomes create fit0 r n Hw) as H.
  fold s in H. split; [exact H|].
  intro Hc. destruct (tick A s) as [s'|s0|] eqn:Ht.
  - now exists s'.
  - now destruct (tick_not_terminated A s s0 Hc).
  - congruence.
Qed.

Lemma loop_progress_witness :
  0 <= get_width (PIPE_IMG sample_assets) /\
  tick sample_assets
       (run sample_assets 500
            (start sample_assets [1; 2; 3]%nat (fun _ => never_jumps)
                   (fun _ => 0%float) sample_rng)) <> IndexError.
Proof.
  assert (Hw : 0 <= get_width (PIPE_IMG sample_assets)) by (cbn; lia).
  split; [exact Hw|].
  exact (proj1 (loop_progress sample_assets [1; 2; 3]%nat
                  (fun _ => never_jumps) (fun _ => 0%float) sample_rng 500 Hw)).
Defined.

(** ** The animation *)

Lemma draw_frame_of A b :
  0 <= Bird.img_count b <= 20 ->
  Bird.img b = frame_of A (Bird.img_count b) \/
  (Bird.img_count b = 10 /\ Bird.img b = BIRD_IMG1 A) ->
  (Bird.tilt b <= -80 ->
   Bird.img_count (Bird.draw A b) = 10 /\
   Bird.img (Bird.draw A b) = BIRD_IMG1 A) /\
  (-80 < Bird.tilt b ->
   Bird.img (Bird.draw A b) = frame_of A (Bird.img_count (Bird.draw A b)) /\
   Bird.img_count (Bird.draw A b) = (Bird.img_count b + 1) mod 21).
Proof.
  destruct b as [x y tilt tc v h cnt img].
  cbn [Bird.img_count Bird.img Bird.tilt]. intros Hc Hi.
  assert (Hin : In cnt (zrange 21)) by (apply zrange_In; lia).
  unfold Bird.draw, Bird.ANIMATION_TIME.
  cbn [Bird.img_count Bird.img Bird.tilt].
  destruct (tilt <=? -80) eqn:Et;
    [apply Z.leb_le in Et|apply Z.leb_gt in Et].
  - split; [|lia]. intros _.
    repeat match goal with
           | |- context [if ?c then _ else _] => destruct c
           end; split; reflexivity.
  - split; [lia|]. intros _.
    vm_compute in Hin.
    repeat (destruct Hin as [<-|Hin];
            [cbn;
             first [split; reflexivity
                   |destruct Hi as [->|[Hi _]];
                    [split; reflexivity|discriminate]]|]).
    destruct Hin.
Qed.

(** X14.  The image of a bird follows its animation counter: counts 0..4
    show the first frame, 5..9 the second, 10..14 the third and 15..20 the
    second again, except right after a dive, when the counter is 10 and the
    second frame is shown.  A call of [draw] on a bird tilted to -80 or
    below shows the second frame and sets the counter to 10; otherwise it
    advances the counter by one, modulo 21. *)
Theorem frame_follows_counter (A : Assets) (x0 y0 : Z) (ops : list BirdOp) :
  let b := bird_after A x0 y0 ops in
  let b' := Bird.draw A b in
  (Bird.img b = frame_of A (Bird.img_count b) \/
   (Bird.img_count b = 10 /\ Bird.img b = BIRD_IMG1 A)) /\
  (if Bird.tilt b <=? -80
   then Bird.img_count b' = 10 /\ Bird.img b' = BIRD_IMG1 A
   else Bird.img b' = frame_of A (Bird.img_count b') /\
        Bird.img_count b' = (Bird.img_count b + 1) mod 21).
Proof.
  intros b b'.
  assert (Hc : 0 <= Bird.img_count b <= 20)
    by apply (bird_after_invariant A x0 y0 ops).
  assert (Hi : Bird.img b = frame_of A (Bird.img_count b) \/
               (Bird.img_count b = 10 /\ Bird.img b = BIRD_IMG1 A)).
  { subst b b'. clear Hc. unfold bird_after.
    induction ops as [|o ops IH] using rev_ind; [now left|].
    rewrite fold_left_app. cbn [fold_left].
    set (b := fold_left (bird_step A) ops (Bird.init A x0 y0)) in *.
    assert (Hc : 0 <= Bird.img_count b <= 20)
      by apply (bird_after_invariant A x0 y0 ops).
    destruct o; cbn [bird_step].
    - exact IH.
    - destruct (move_keeps b) as (_ & _ & _ & _ & -> & ->). exact IH.
    - destruct (draw_frame_of A b Hc IH) as [Hd Hn].
      destruct (Z_le_gt_dec (Bird.tilt b) (-80)) as [Ht|Ht].
      + right. now apply Hd.
      + left. apply Hn. lia. }
  split; [exact Hi|].
  destruct (draw_frame_of A b Hc Hi) as [Hd Hn]. subst b'.
  destruct (Bird.tilt b <=? -80) eqn:Et;
    [apply Z.leb_le in Et; now apply Hd|apply Z.leb_gt in Et; now apply Hn].
Qed.

(** ** How many bookings a genome can get *)

Lemma counts_le A g : forall n s,
  NoDup (gids (cohort s)) ->
  (passes_seen A n s g <= ticks_alive A n s g <= n)%nat.
Proof.
  induction n as [|n IH]; intros s N; cbn [ticks_alive passes_seen]; [lia|].
  destruct (tick A s) as [s'| |] eqn:Ht; try lia.
  destruct (tick_account A s s' g Ht N) as (Hsub & Hrw & _).
  assert (N' : NoDup (gids (cohort s')))
    by (eapply subseq_NoDup; eassumption).
  specialize (IH s' N').
  destruct (rewarded A s g); [rewrite (Hrw eq_refl)|];
    destruct (alive g (cohort s)); lia.
Qed.

Lemma count_total evs :
  length evs = (count Survived evs + count Passed evs + count Died evs)%nat.
Proof.
  induction evs as [|e evs IH]; [reflexivity|].
  unfold count in *. destruct e; cbn [filter is_event length]; lia.
Qed.

(** X15.  The fitness of a genome moves by bookings only, and their number
    is bounded: in [n] iterations a genome gets at most [n] survival
    rewards, no more pass rewards than survival rewards, and at most one
    penalty.  The value these bookings add up to is a binary64 sum in the
    order of the bookings. *)
Theorem bookings_bounded (A : Assets) (s : State) (n : nat) (g : nat) :
  NoDup (gids (cohort s)) ->
  let evs := events A n s g in
  fitness (run A n s) g = fold_left book evs (fitness s g) /\
  (count Passed evs <= count Survived evs <= n)%nat /\
  (count Died evs <= 1)%nat /\
  length evs =
    (count Survived evs + count Passed evs + count Died evs)%nat.
Proof.
  intros N evs.
  destruct (run_account A g n s N) as (_ & _ & _ & Hrun).
  destruct (events_count A g n s N) as (C1 & C2 & C3).
  pose proof (counts_le A g n s N) as Hle.
  fold evs in Hrun, C1, C2, C3.
  split; [exact Hrun|]. split; [rewrite C1, C2; exact Hle|].
  split; [|apply count_total].
  rewrite C3. destruct (_ && _); lia.
Qed.

Lemma bookings_bounded_witness :
  NoDup (gids (cohort crash_state)) /\
  (count Passed (events sample_assets 12 crash_state 7)
   <= count Survived (events sample_assets 12 crash_state 7) <= 12)%nat.
Proof.
  assert (N : NoDup (gids (cohort crash_state))).
  { cbn. repeat constructor. intros []. }
  split; [exact N|].
  exact (proj1 (proj2 (bookings_bounded sample_assets crash_state 12 7 N))).
Defined.

(** ** The cohorts the game reaches *)

Lemma run_start_shape_witness :
  NoDup [1; 2; 3]%nat /\
  NoDup (gids (cohort (run sample_assets 40
                         (start sample_assets [1; 2; 3]%nat
                                (fun _ => never_jumps) (fun _ => 0%float)
                                sample_rng)))).
Proof.
  assert (N : NoDup [1; 2; 3]%nat).
  { repeat constructor; cbn; intuition discriminate. }
  split; [exact N|].
  exact (proj1 (run_start_shape sample_assets [1; 2; 3]%nat
                  (fun _ => never_jumps) (fun _ => 0%float) sample_rng 40 N)).
Defined.

(** ** The fitness of a survivor *)

Lemma tick_survivor A s s' g :
  tick A s = Running s' ->
  alive g (cohort s') = true ->
  rewarded A s g = signalled A s /\
  score s' = score s + (if signalled A s then 1 else 0).
Proof.
  intros Ht Hal.
  destruct (tick_running_inv A s s' Ht) as (Hc & c1 & fit1 & log & Hth).
  destruct (pipes_loop_spec A (pipes s) c1 fit1 false [])
    as (ps1 & c2 & fit2 & E & _).
  cbn [orb app] in E.
  set (add := existsb (fun pp => flips (fst pp) (snd pp))
                      (combine (pipes s) ps1)) in E.
  rewrite (tick_phases A s _ _ _ _ _ _ _ _ Hc Hth E) in Ht.
  injection Ht as <-. cbn [cohort score] in *.
  unfold rewarded, signalled. rewrite Hth, E. split; [|reflexivity].
  replace (alive g c2) with true; [now rewrite andb_true_r|].
  symmetry. unfold alive in Hal. rewrite draw_window_gids in Hal.
  rewrite bounds_scan_sweep in Hal. cbn [fst] in Hal.
  exact (alive_subseq g _ c2 (sweep_subseq bounds_body c2 tt _) Hal).
Qed.

Lemma run_survivor A g : forall n s,
  NoDup (gids (cohort s)) ->
  (forall k, tick A (run A k s) <> IndexError) ->
  alive g (cohort (run A n s)) = true ->
  length (signals A n s) = n /\
  score (run A n s) =
    score s + Z.of_nat (length (filter (fun up => up) (signals A n s))) /\
  fitness (run A n s) g = fold_left outlived (signals A n s) (fitness s g).
Proof.
  induction n as [|n IH]; intros s N Hk Hal.
  - cbn. split; [reflexivity|]. split; [lia|reflexivity].
  - assert (H0 : alive g (cohort s) = true)
      by (apply (run_account A g (S n) s N); exact Hal).
    cbn [run signals] in *.
    destruct (tick A s) as [s'|s0|] eqn:Ht.
    + destruct (tick_account A s s' g Ht N) as (Hsub & _ & Hfit).
      assert (N' : NoDup (gids (cohort s')))
        by (eapply subseq_NoDup; eassumption).
      assert (Hk' : forall k, tick A (run A k s') <> IndexError).
      { intro k. specialize (Hk (S k)). cbn [run] in Hk.
        now rewrite Ht in Hk. }
      destruct (IH s' N' Hk' Hal) as (IH1 & IH2 & IH3).
      assert (H1 : alive g (cohort s') = true)
        by (apply (run_account A g n s' N'); exact Hal).
      destruct (tick_survivor A s s' g Ht H1) as [Hr Hs].
      rewrite H0, H1, Hr in Hfit.
      cbn [length filter fold_left]. rewrite IH1, IH2, IH3, Hfit, Hs.
      split; [reflexivity|].
      destruct (signalled A s); cbn [length]; split; try reflexivity; lia.
    + exfalso. apply (tick_not_terminated A s s0); [|exact Ht].
      intro Hc. rewrite Hc in H0. discriminate.
    + exfalso. apply (Hk O). exact Ht.
Qed.

(** X18.  A genome whose bird is still flying after [n] iterations of an
    episode has been booked [+= 0.1] in each of them, followed by [+= 5] in
    those in which the score went up, and nothing else: its fitness is what
    these bookings make of 0 in binary64 arithmetic, and the same for every
    bird that is still flying. *)
Theorem survivor_fitness
    (A : Assets) (genomes : list nat) (create : nat -> Net) (fit0 : Store)
    (r : Rng) (n : nat) (g : nat) :
  NoDup genomes ->
  0 <= get_width (PIPE_IMG A) ->
  let s0 := start A genomes create fit0 r in
  let final := run A n s0 in
  alive g (cohort final) = true ->
  fitness final g = fold_left outlived (signals A n s0) 0%float /\
  length (signals A n s0) = n /\
  score final =
    Z.of_nat (length (filter (fun up => up) (signals A n s0))) /\
  (forall h, alive h (cohort final) = true ->
             fitness final h = fitness final g).
Proof.
  intros N Hw s0 final Hal. subst final.
  assert (Ns : NoDup (gids (cohort s0))).
  { unfold s0. now rewrite (proj1 (start_fresh A genomes create fit0 r g)). }
  assert (Hk : forall k, tick A (run A k s0) <> IndexError)
    by (intro k; apply run_never_raises; exact Hw).
  assert (Hsc : score s0 = 0)
    by (unfold s0, start; now destruct (Pipe.init A 600 r)).
  assert (Hz : forall h, alive h (cohort (run A n s0)) = true ->
                         fitness s0 h = 0%float).
  { intros h Hh. destruct (start_fresh A genomes create fit0 r h) as [Hg Hf].
    apply Hf. rewrite <- Hg. apply alive_In.
    apply (run_account A h n s0 Ns). exact Hh. }
  destruct (run_survivor A g n s0 Ns Hk Hal) as (H1 & H2 & H3).
  rewrite (Hz g Hal) in H3. rewrite Hsc in H2.
  split; [exact H3|]. split; [exact H1|]. split; [exact H2|].
  intros h Hh. destruct (run_survivor A h n s0 Ns Hk Hh) as (_ & _ & H3').
  rewrite (Hz h Hh) in H3'. now rewrite H3, H3'.
Qed.

Lemma survivor_fitness_witness :
  NoDup [1; 2; 3]%nat /\
  0 <= get_width (PIPE_IMG sample_assets) /\
  alive 2 (cohort (run sample_assets 10
                     (start sample_assets [1; 2; 3]%nat
                            (fun _ => never_jumps) (fun _ => 0%float)
                            sample_rng))) = true /\
  fitness (run sample_assets 10
             (start sample_assets [1; 2; 3]%nat (fun _ => never_jumps)
                    (fun _ => 0%float) sample_rng)) 2%nat
  = fold_left outlived
      (signals sample_assets 10
         (start sample_assets [1; 2; 3]%nat (fun _ => never_jumps)
                (fun _ => 0%float) sample_rng)) 0%float /\
  fitness (run sample_assets 10
             (start sample_assets [1; 2; 3]%nat (fun _ => never_jumps)
                    (fun _ => 0%float) sample_rng)) 2%nat
  = 0.9999999999999999%float.
Proof.
  assert (N : NoDup [1; 2; 3]%nat).
  { repeat constructor; cbn; intuition discriminate. }
  assert (Hw : 0 <= get_width (PIPE_IMG sample_assets)) by (cbn; lia).
  assert (Hal : alive 2 (cohort (run sample_assets 10
                     (start sample_assets [1; 2; 3]%nat
                            (fun _ => never_jumps) (fun _ => 0%float)
                            sample_rng))) = true)
    by (vm_compute; reflexivity).
  split; [exact N|]. split; [exact Hw|]. split; [exact Hal|].
  split; [|vm_compute; reflexivity].
  exact (proj1 (survivor_fitness sample_assets [1; 2; 3]%nat
                  (fun _ => never_jumps) (fun _ => 0%float) sample_rng 10 2
                  N Hw Hal)).
Defined.
